(** * Feature extraction pipeline of SoundEventDetection

    A shallow embedding of [dataset/spectogram_features/preprocess.py]:
    the audio loader, the multichannel STFT, the log-mel projection, the
    corpus statistics and the cache writer, followed by the properties
    the specification states about them.

    Conventions.
    - numpy floating point values are modelled by exact reals ([R]); the
      rounding of [float32]/[complex64] arithmetic is not modelled.
    - a 2D array carries its number of columns, so that an array with no
      row still has a channel count; 3D arrays are nested lists
      [channel][time_frame][bin] (the pipeline never builds one with an
      empty axis: the STFT raises on an empty signal).
    - the configuration module [spectogram_configs] is a record [config];
      the mel filter bank and [librosa.resample] are parameters; the other
      numpy, librosa and posixpath functions the source calls are written
      out after their library definitions.
    - exceptions are values of [exn]; functions that can raise return a
      [result]. *)

From Stdlib Require Import Reals Lra Permutation.
From stdpp Require Import gmap strings list fin_maps.

(** ** Configuration, exceptions, scalars *)

Record config := Config {
  working_sample_rate : nat;
  audio_channels : nat;
  NFFT : nat;
  frame_size : nat;
  hop_size : nat;
  mel_bins : nat
}.

Inductive exn :=
| RuntimeError        (* soundfile could not open or decode the file *)
| ValueError          (* numpy: shapes, empty concatenation, empty pad *)
| ParameterError      (* librosa argument checks *)
| IndexError          (* indexing or choosing from an empty sequence *)
| UnboundLocalError.  (* [axis] never assigned *)

Definition result (A : Type) : Type := exn + A.

Definition rbind {A B} (r : result A) (k : A → result B) : result B :=
  match r with inl e => inl e | inr a => k a end.

Fixpoint rmapM {A B} (f : A → result B) (l : list A) : result (list B) :=
  match l with
  | [] => inr []
  | x :: l' => rbind (f x) (λ y, rbind (rmapM f l') (λ ys, inr (y :: ys)))
  end.

Definition Rsum (l : list R) : R := fold_right Rplus 0%R l.

Definition complex : Type := R * R.

(** What [np.mean] and [np.std] need of a dtype: sums, division by a
    count, and the squared modulus of a deviation ([x*x] for reals,
    [x*conj x] for complex values). *)
Class Scalar (A : Type) := {
  szero : A;
  sadd : A → A → A;
  ssub : A → A → A;
  sdiv : A → R → A;
  sabs2 : A → R
}.

#[export] Instance Scalar_R : Scalar R := {|
  szero := 0%R;
  sadd := Rplus;
  ssub := Rminus;
  sdiv := Rdiv;
  sabs2 := λ x, (x * x)%R
|}.

#[export] Instance Scalar_complex : Scalar complex := {|
  szero := (0%R, 0%R);
  sadd := λ a b, ((a.1 + b.1)%R, (a.2 + b.2)%R);
  ssub := λ a b, ((a.1 - b.1)%R, (a.2 - b.2)%R);
  sdiv := λ a n, ((a.1 / n)%R, (a.2 / n)%R);
  sabs2 := λ a, (a.1 * a.1 + a.2 * a.2)%R
|}.

Definition ssum {A} `{Scalar A} (l : list A) : A := fold_right sadd szero l.

(** ** Arrays *)

(** A 2D array [time, channel]. *)
Record ndarray2 := Nd2 { ncols : nat; rows : list (list R) }.

Definition wf2 (a : ndarray2) : Prop :=
  Forall (λ r, length r = ncols a) (rows a).

(** What [soundfile.read] hands back: a 1D array for a mono file, a 2D
    array otherwise. *)
Inductive sf_array :=
| Sf1 (y : list R)
| Sf2 (a : ndarray2).

Definition tensor3 (A : Type) : Type := list (list (list A)).

(** [y.reshape(-1, 1)] *)
Definition reshape_col (y : list R) : ndarray2 :=
  Nd2 1 (map (λ v, [v]) y).

(** [a.mean(1)] *)
Definition mean_axis1 (a : ndarray2) : list R :=
  map (λ r, (Rsum r / INR (ncols a))%R) (rows a).

(** [np.repeat(col, k, axis=1)] of a column *)
Definition repeat_axis1 (col : list R) (k : nat) : ndarray2 :=
  Nd2 k (map (λ v, replicate k v) col).

(** [a[:, :k]] *)
Definition slice_cols (a : ndarray2) (k : nat) : ndarray2 :=
  Nd2 (Nat.min k (ncols a)) (map (take k) (rows a)).

(** [a[:, i]] *)
Definition column (a : ndarray2) (i : nat) : list R :=
  map (λ r, nth i r 0%R) (rows a).

(** [np.array(chans).T] for a list of 1D arrays: an empty list gives an
    empty 1D array, channels of different lengths are refused. *)
Definition array_T (chans : list (list R)) : result sf_array :=
  match chans with
  | [] => inr (Sf1 [])
  | c0 :: _ =>
      if forallb (λ c, length c =? length c0) chans
      then inr (Sf2 (Nd2 (length chans)
                      (map (λ j, map (λ c, nth j c 0%R) chans)
                           (seq 0 (length c0)))))
      else inl ValueError
  end.

(** ** Audio loader *)

Section Loader.
Variable cfg : config.
(** [librosa.resample(y, orig_sr, target_sr)] *)
Variable resample : nat → nat → list R → list R.
(** [soundfile.read]: the audio files on disk, with their sample rate. *)
Variable soundfile_read : string → option (sf_array * nat).

(** Lines 25-33 of [read_multichannel_audio]: the reshape of a 1D
    array and the if/elif chain on the channel count. *)
Definition normalize_channels (x : sf_array) : ndarray2 :=
  let a := match x with Sf1 y => reshape_col y | Sf2 a => a end in
  if ncols a <? audio_channels cfg then
    repeat_axis1 (mean_axis1 a) (audio_channels cfg)
  else if audio_channels cfg =? 1 then
    reshape_col (mean_axis1 a)
  else if audio_channels cfg <? ncols a then
    slice_cols a (audio_channels cfg)
  else a.

Definition read_multichannel_audio (audio_path : string) (target_fs : option nat)
  : result sf_array :=
  match soundfile_read audio_path with
  | None => inl RuntimeError
  | Some (x, sample_rate) =>
      let a := normalize_channels x in
      match target_fs with
      | Some fs =>
          if negb (sample_rate =? fs) then
            array_T (map (λ i, resample sample_rate fs (column a i))
                         (seq 0 (ncols a)))
          else inr (Sf2 a)
      | None => inr (Sf2 a)
      end
  end.
End Loader.

(** ** Multichannel STFT engine *)

(** [np.hanning(M)] *)
Definition np_hanning (M : nat) : list R :=
  if M <? 1 then []
  else if M =? 1 then [1%R]
  else map (λ n, (0.5 - 0.5 * cos (2 * PI * INR n / INR (M - 1)))%R) (seq 0 M).

(** [librosa.util.pad_center(w, size)]: zero padding on both sides, refused
    when the window is longer than [size]. *)
Definition pad_center (w : list R) (size : nat) : result (list R) :=
  if size <? length w then inl ParameterError
  else
    let lpad := (size - length w) / 2 in
    inr (replicate lpad 0%R ++ w ++ replicate (size - length w - lpad) 0%R).

(** Source index of position [i] of the reflected extension of a signal of
    [n] samples ([i] counted from the first sample, negative to the left).
    A single sample is extended by itself. *)
Definition reflect_index (n : nat) (i : Z) : nat :=
  if n <=? 1 then 0
  else
    let period := (2 * (Z.of_nat n - 1))%Z in
    let j := (i mod period)%Z in
    Z.to_nat (if (j <? Z.of_nat n)%Z then j else (period - j)%Z).

(** [np.pad(y, p, mode='reflect')]: an empty axis cannot be extended. *)
Definition np_pad_reflect (y : list R) (p : nat) : result (list R) :=
  match y with
  | [] => if p =? 0 then inr [] else inl ValueError
  | _ =>
      inr (map (λ i, nth (reflect_index (length y) (Z.of_nat i - Z.of_nat p)) y 0%R)
               (seq 0 (length y + 2 * p)))
  end.

(** Number of frames of [librosa.util.frame] on [len] samples. *)
Definition frame_count (len n_fft hop : nat) : nat := 1 + (len - n_fft) / hop.

(** One bin of the one-sided DFT of a windowed frame. *)
Definition dft_bin (n_fft : nat) (frame : list R) (f : nat) : complex :=
  let term (g : R → R) :=
    Rsum (map (λ k, (nth k frame 0 * g (2 * PI * INR f * INR k / INR n_fft))%R)
              (seq 0 n_fft)) in
  (term cos, (- term sin)%R).

(** [librosa.core.stft(y, n_fft, hop_length, win_length, window,
    center=True, pad_mode='reflect').T], indexed [time_frame][frequency_bin]:
    the window, given as an array of [win_length] values, is padded to
    [n_fft]; the signal is extended by [n_fft // 2] reflected samples on
    both sides, cut into frames [hop_length] apart, and each windowed
    frame goes through the one-sided DFT. *)
Definition stft (y : list R) (n_fft win_length hop_length : nat) (window : list R)
  : result (list (list complex)) :=
  if (n_fft =? 0) || negb (length window =? win_length) then inl ParameterError else
  rbind (pad_center window n_fft) (λ fft_window,
  rbind (np_pad_reflect y (n_fft / 2)) (λ ypad,
  if (length ypad <? n_fft) || (hop_length <? 1) then inl ParameterError
  else
    inr (map (λ t,
           let frame := map (λ k, (nth k fft_window 0 * nth (t * hop_length + k) ypad 0)%R)
                            (seq 0 n_fft) in
           map (dft_bin n_fft frame) (seq 0 (n_fft / 2 + 1)))
         (seq 0 (frame_count (length ypad) n_fft hop_length))))).

Section Features.
Variable cfg : config.
(** [MEL_FILTER_BANK_MATRIX], of shape [frequency_bins, mel_bins]. *)
Variable MEL_FILTER_BANK_MATRIX : ndarray2.

Definition multichannel_stft (multichannel_signal : sf_array)
  : result (tensor3 complex) :=
  match multichannel_signal with
  | Sf1 _ => inl ValueError   (* a 1D shape does not unpack into two names *)
  | Sf2 a =>
      rmapM (λ c, stft (column a c) (NFFT cfg) (frame_size cfg) (hop_size cfg)
                       (np_hanning (frame_size cfg)))
            (seq 0 (ncols a))
  end.

(** ** Log-mel projector *)

Definition log10 (x : R) : R := (ln x / ln 10)%R.

(** [librosa.core.power_to_db(S, ref, amin, top_db=None)] on one entry. *)
Definition power_to_db (ref amin S : R) : R :=
  (10 * log10 (Rmax amin S) - 10 * log10 (Rmax amin (Rabs ref)))%R.

(** [np.abs(z) ** 2] *)
Definition abs_pow2 (z : complex) : R := (sqrt (z.1 * z.1 + z.2 * z.2) ^ 2)%R.

(** [np.dot(row, B)] for a row of the last axis. *)
Definition dot_row (row : list R) (B : ndarray2) : result (list R) :=
  if length row =? length (rows B) then
    inr (map (λ m, Rsum (zip_with Rmult row (column B m))) (seq 0 (ncols B)))
  else inl ValueError.

Definition multichannel_complex_to_log_mel (multichannel_complex_spectogram : tensor3 complex)
  : result (tensor3 R) :=
  let multichannel_power_spectogram :=
    map (map (map abs_pow2)) multichannel_complex_spectogram in
  rbind (rmapM (rmapM (λ row, dot_row row MEL_FILTER_BANK_MATRIX))
               multichannel_power_spectogram)
        (λ multichannel_mel_spectogram,
           inr (map (map (map (power_to_db 1.0 1e-10))) multichannel_mel_spectogram)).
End Features.

(** ** Corpus statistics accumulator *)

(** An array of 1, 2 or 3 dimensions, as [calculate_scalar_of_tensor]
    distinguishes them through [x.ndim]; [Arr1] stands for every array
    that is neither 2D nor 3D. *)
Inductive ndarray (A : Type) :=
| Arr1 (v : list A)
| Arr2 (m : list (list A))
| Arr3 (t : tensor3 A).
Arguments Arr1 {A} v.
Arguments Arr2 {A} m.
Arguments Arr3 {A} t.

Definition shape {A} (x : ndarray A) : list nat :=
  match x with
  | Arr1 v => [length v]
  | Arr2 m => [length m; length (hd [] m)]
  | Arr3 t => [length t; length (hd [] t); length (hd [] (hd [] t))]
  end.

Section Reduce.
Context {A : Type} `{Scalar A}.

(** Entries of bin [m] over a list of rows. *)
Definition bin_values (m : nat) (rs : list (list A)) : list A :=
  map (λ r, nth m r szero) rs.

(** [np.mean] over all the rows [rs], one value per bin. *)
Definition mean_rows (rs : list (list A)) : list A :=
  map (λ m, sdiv (ssum (bin_values m rs)) (INR (length rs)))
      (seq 0 (length (hd [] rs))).

(** [np.std] over all the rows [rs]: the root of the mean squared
    modulus of the deviations from the mean. *)
Definition std_rows (rs : list (list A)) : list R :=
  let arrmean := mean_rows rs in
  map (λ m, sqrt (Rsum (map (λ x, sabs2 (ssub x (nth m arrmean szero)))
                            (bin_values m rs))
                  / INR (length rs)))
      (seq 0 (length (hd [] rs))).

Definition calculate_scalar_of_tensor (x : ndarray A)
  : result (ndarray A * ndarray R) :=
  match x with
  | Arr2 m => inr (Arr1 (mean_rows m), Arr1 (std_rows m))                   (* axis = 0 *)
  | Arr3 t => inr (Arr1 (mean_rows (concat t)), Arr1 (std_rows (concat t))) (* axis = (0, 1) *)
  | Arr1 _ => inl UnboundLocalError
  end.

Definition bins (x : tensor3 A) : nat := length (hd [] (hd [] x)).

(** [np.concatenate(xs, axis=1)] of 3D arrays. *)
Fixpoint concat_axis1 (xs : list (tensor3 A)) : result (tensor3 A) :=
  match xs with
  | [] => inl ValueError
  | x :: xs' =>
      match xs' with
      | [] => inr x
      | _ => rbind (concat_axis1 xs') (λ r,
               if (length x =? length r) && (bins x =? bins r)
               then inr (zip_with app x r)
               else inl ValueError)
      end
  end.
End Reduce.

(** ** Feature cache writer *)

(** The feature of one file: the complex spectrogram, or its log-mel
    projection when the preprocessing mode is ['logMel']. *)
Inductive feature :=
| ComplexSpec (t : tensor3 complex)
| LogMel (t : tensor3 R).

Definition as_real (f : feature) : option (tensor3 R) :=
  match f with LogMel t => Some t | ComplexSpec _ => None end.

Definition as_complex (f : feature) : tensor3 complex :=
  match f with
  | ComplexSpec t => t
  | LogMel t => map (map (map (λ r, (r, 0%R)))) t
  end.

(** [np.concatenate(all_features, axis=1)]: real when every array is. *)
Definition concatenate_features (all_features : list feature) : result feature :=
  match mapM as_real all_features with
  | Some ts => rbind (concat_axis1 ts) (λ t, inr (LogMel t))
  | None => rbind (concat_axis1 (map as_complex all_features)) (λ t, inr (ComplexSpec t))
  end.

Inductive pyval :=
| VFeature (f : feature)
| VTimes (l : list R)
| VReal (x : ndarray R)
| VComplex (x : ndarray complex).

(** A written file: a pickled dictionary, or the debug image. *)
Inductive file :=
| Pickle (d : gmap string pyval)
| Png.

Record filesystem := Fs { files : gmap string file; dirs : gset string }.

Definition slash : Ascii.ascii := Ascii.ascii_of_nat 47.

(** [posixpath.join(a, b)] *)
Fixpoint ends_with_slash (s : string) : bool :=
  match s with
  | EmptyString => false
  | String c EmptyString => Ascii.eqb c slash
  | String _ s' => ends_with_slash s'
  end.

Definition os_path_join (a b : string) : string :=
  if String.prefix "/" b then b
  else if String.eqb a EmptyString || ends_with_slash a then a +:+ b
  else a +:+ "/" +:+ b.

(** [posixpath.dirname(p)] *)
Fixpoint upto_last_slash (p : string) : string :=
  match p with
  | EmptyString => EmptyString
  | String c p' =>
      let h := upto_last_slash p' in
      if negb (String.eqb h EmptyString) || Ascii.eqb c slash then String c h else EmptyString
  end.

Fixpoint all_slashes (s : string) : bool :=
  match s with
  | EmptyString => true
  | String c s' => Ascii.eqb c slash && all_slashes s'
  end.

Fixpoint rstrip_slash (s : string) : string :=
  match s with
  | EmptyString => EmptyString
  | String c s' =>
      let r := rstrip_slash s' in
      if String.eqb r EmptyString && Ascii.eqb c slash then EmptyString else String c r
  end.

Definition os_path_dirname (p : string) : string :=
  let head := upto_last_slash p in
  if all_slashes head then head else rstrip_slash head.

(** Computations that write files and may raise: the files written before
    an exception stay written. *)
Definition M (A : Type) : Type := filesystem → filesystem * result A.

Definition ret {A} (a : A) : M A := λ s, (s, inr a).
Definition bind {A B} (m : M A) (k : A → M B) : M B :=
  λ s, match m s with
       | (s', inl e) => (s', inl e)
       | (s', inr a) => k a s'
       end.
Definition lift {A} (r : result A) : M A := λ s, (s, r).

Notation "'let*' x ':=' m 'in' k" := (bind m (λ x, k))
  (at level 10, x name, m at level 100, k at level 200).

(** [os.makedirs(d, exist_ok=True)] *)
Definition makedirs (d : string) : M unit :=
  λ s, (Fs (files s) ({[d]} ∪ dirs s), inr tt).

(** [with open(path, 'wb') as f: pickle.dump(d, f)] and the like. *)
Definition write_file (path : string) (c : file) : M unit :=
  λ s, (Fs (<[path := c]> (files s)) (dirs s), inr tt).

(** One element of [audio_path_and_labels]. *)
Record labeled_audio := LabeledAudio {
  audio_path : string;
  start_times : list R;
  end_times : list R;
  audio_name : string
}.

(** [random.choice(l)], the drawn position being [rnd]. *)
Definition random_choice {A} (rnd : nat) (l : list A) : result A :=
  match l with
  | [] => inl IndexError
  | x :: _ => inr (nth (rnd mod length l) l x)
  end.

Definition features_record (f : feature) (st en : list R) : file :=
  Pickle (<["features" := VFeature f]>
          (<["start_times" := VTimes st]>
           (<["end_times" := VTimes en]> ∅))).

Definition mean_std_record (mean std : pyval) : file :=
  Pickle (<["mean" := mean]> (<["std" := std]> ∅)).

Section Preprocess.
Variable cfg : config.
Variable MEL_FILTER_BANK_MATRIX : ndarray2.
Variable resample : nat → nat → list R → list R.
Variable soundfile_read : string → option (sf_array * nat).

(** Lines 91-94: the feature of one file. *)
Definition compute_feature (path preprocess_mode : string) : result feature :=
  rbind (read_multichannel_audio cfg resample soundfile_read path
           (Some (working_sample_rate cfg))) (λ multichannel_waveform,
  rbind (multichannel_stft cfg multichannel_waveform) (λ spec,
  if String.eqb preprocess_mode "logMel" then
    rbind (multichannel_complex_to_log_mel MEL_FILTER_BANK_MATRIX spec)
          (λ t, inr (LogMel t))
  else inr (ComplexSpec spec))).

Definition cache_path (output_dir preprocess_mode : string) (e : labeled_audio) : string :=
  os_path_join output_dir
    (audio_name e +:+ "_" +:+ preprocess_mode +:+ "_features_and_labels.pkl").

(** Lines 90-100: the loop over the files, [all_features] being the
    list built so far. *)
Fixpoint process_files (l : list labeled_audio) (output_dir preprocess_mode : string)
    (all_features : list feature) : M (list feature) :=
  match l with
  | [] => ret all_features
  | e :: l' =>
      let* feature := lift (compute_feature (audio_path e) preprocess_mode) in
      let* _ := write_file (cache_path output_dir preprocess_mode e)
                  (features_record feature (start_times e) (end_times e)) in
      process_files l' output_dir preprocess_mode (all_features ++ [feature])
  end.

(** Lines 102-103 on the concatenated features. *)
Definition feature_statistics (all_features : feature) : result (pyval * pyval) :=
  match all_features with
  | LogMel t =>
      rbind (calculate_scalar_of_tensor (Arr3 t)) (λ '(mean, std), inr (VReal mean, VReal std))
  | ComplexSpec t =>
      rbind (calculate_scalar_of_tensor (Arr3 t)) (λ '(mean, std), inr (VComplex mean, VReal std))
  end.

(** Modelled from the spec: [plot_debug_image] and [create_event_matrix]
    are not part of the sources at hand; the debug visualization is one
    image file per run, written at [plot_path] once the features of the
    chosen file have been recomputed. *)
Definition analyze_data_sample (e : labeled_audio) (plot_path : string) : M unit :=
  match soundfile_read (audio_path e) with
  | None => lift (inl RuntimeError)
  | Some _ =>
      let* feature := lift (compute_feature (audio_path e) "logMel") in
      match as_real feature with
      | Some (first_channel_feature :: _) => write_file plot_path Png
      | _ => lift (inl IndexError)
      end
  end.

Definition preprocess_data (audio_path_and_labels : list labeled_audio)
    (output_dir output_mean_std_file preprocess_mode : string) (rnd : nat) : M unit :=
  let* _ := makedirs output_dir in
  let* all_features := process_files audio_path_and_labels output_dir preprocess_mode [] in
  let* all_features := lift (concatenate_features all_features) in
  let* ms := lift (feature_statistics all_features) in
  let* _ := write_file output_mean_std_file (mean_std_record ms.1 ms.2) in
  let* e := lift (random_choice rnd audio_path_and_labels) in
  analyze_data_sample e
    (os_path_join (os_path_dirname output_mean_std_file) "data_sample.png").
End Preprocess.

(** ** Specification-side notions and sample inputs *)

Definition wf_sf (x : sf_array) : Prop :=
  match x with Sf1 _ => True | Sf2 a => wf2 a end.

(** The 2D view of what [soundfile.read] returned (line 26). *)
Definition as_2d (x : sf_array) : ndarray2 :=
  match x with Sf1 y => reshape_col y | Sf2 a => a end.

(** [librosa.resample] returns as many samples for two inputs of the same
    length: the output length is computed from the input length and the
    two rates. *)
Definition length_determined (resample : nat → nat → list R → list R) : Prop :=
  ∀ o t y1 y2, length y1 = length y2 →
    length (resample o t y1) = length (resample o t y2).

(** A resampler by sample-and-hold, used to instantiate the parameter. *)
Definition hold_resample (o t : nat) (y : list R) : list R :=
  map (λ i, nth (i * o / t) y 0%R) (seq 0 (length y * t / o)).

(** A small configuration: two channels, FFT of two points, hop of one. *)
Definition small_cfg : config :=
  {| working_sample_rate := 2; audio_channels := 2; NFFT := 2;
     frame_size := 2; hop_size := 1; mel_bins := 1 |}.

Definition small_mel : ndarray2 := Nd2 1 [[1%R]; [1%R]].

(** A disk with one mono file of one sample, at the working rate. *)
Definition one_file_disk (p : string) : option (sf_array * nat) :=
  if String.eqb p "a.wav" then Some (Sf1 [1%R], 2) else None.

(** The configurations the STFT accepts. *)
Definition valid_config (cfg : config) : Prop :=
  0 < NFFT cfg ∧ frame_size cfg ≤ NFFT cfg ∧ 0 < hop_size cfg.

(** [ceil(n / h)] *)
Definition ceil_div (n h : nat) : nat := (n + h - 1) / h.

(** Frames of the centered STFT on [n] samples. *)
Definition stft_frames (cfg : config) (n : nat) : nat :=
  frame_count (n + 2 * (NFFT cfg / 2)) (NFFT cfg) (hop_size cfg).

(** Two samples on two channels, and one sample on two channels. *)
Definition two_samples : sf_array := Sf2 (Nd2 2 [[1%R; 1%R]; [0%R; 0%R]]).
Definition one_sample : sf_array := Sf2 (Nd2 2 [[1%R; 1%R]]).

(** The mel power of one spectrogram row, as [np.dot] gives it when the
    shapes agree. *)
Definition mel_power (MEL : ndarray2) (row : list complex) : list R :=
  map (λ m, Rsum (zip_with Rmult (map abs_pow2 row) (column MEL m)))
      (seq 0 (ncols MEL)).

(** Every entry of a 3D array satisfies [P]. *)
Definition all_entries {A} (P : A → Prop) (t : tensor3 A) : Prop :=
  Forall (Forall (Forall P)) t.

(** The frequency axis of a spectrogram has [F] bins. *)
Definition freq_bins (F : nat) (spec : tensor3 complex) : Prop :=
  Forall (Forall (λ r, length r = F)) spec.

(** A 3D array of shape [C, T, M]. *)
Definition has_shape {A} (C T M : nat) (t : tensor3 A) : Prop :=
  length t = C ∧ Forall (λ ch, length ch = T ∧ Forall (λ r, length r = M) ch) t.

(** The statistic the specification words describe: a mean over time
    alone, one row of mel bins per channel. *)
Definition spec_per_channel_mean (t : tensor3 R) : list (list R) :=
  map mean_rows t.

(** Two channels, one frame, one mel bin. *)
Definition two_channel_feature : tensor3 R := [[[0%R]]; [[2%R]]].

(** Lines 102-103: the statistics of the concatenated features. *)
Definition concatenated_stats (xs : list (tensor3 R))
  : result (ndarray R * ndarray R) :=
  rbind (concat_axis1 xs) (λ t, calculate_scalar_of_tensor (Arr3 t)).

(** The streaming accumulation of the specification: per mel bin, the
    sum and the sum of squares of the entries of a file, and the number
    of rows they were taken over; two accumulators merge by addition. *)
Record accum := Accum { acc_sum : list R; acc_sumsq : list R; acc_count : nat }.

Definition file_accum (x : tensor3 R) : accum :=
  let rs := concat x in
  {| acc_sum := map (λ m, Rsum (bin_values m rs)) (seq 0 (bins x));
     acc_sumsq := map (λ m, Rsum (map (λ v, (v * v)%R) (bin_values m rs)))
                      (seq 0 (bins x));
     acc_count := length rs |}.

Definition merge (a b : accum) : accum :=
  {| acc_sum := zip_with Rplus (acc_sum a) (acc_sum b);
     acc_sumsq := zip_with Rplus (acc_sumsq a) (acc_sumsq b);
     acc_count := acc_count a + acc_count b |}.

Definition finalize (a : accum) : list R * list R :=
  let n := INR (acc_count a) in
  (map (λ s, (s / n)%R) (acc_sum a),
   zip_with (λ s ss, sqrt (ss / n - (s / n) * (s / n))) (acc_sum a) (acc_sumsq a)).

Definition streaming_stats (xs : list (tensor3 R)) : option (list R * list R) :=
  match xs with
  | [] => None
  | x :: xs' => Some (finalize (fold_left merge (map file_accum xs') (file_accum x)))
  end.

(** Every file has [C] channels, [M] bins and at least one frame. *)
Definition files_shape (C M : nat) (xs : list (tensor3 R)) : Prop :=
  Forall (λ x, ∃ T, 1 ≤ T ∧ has_shape C T M x) xs.

(** Sum over the rows [rs] of [g] applied to the entry of bin [m], and
    the same summed over the files [xs]. *)
Definition colsum (g : R → R) (m : nat) (rs : list (list R)) : R :=
  Rsum (map g (bin_values m rs)).

Definition total (g : R → R) (m : nat) (xs : list (tensor3 R)) : R :=
  Rsum (map (λ x, colsum g m (concat x)) xs).

Definition row_count (xs : list (tensor3 R)) : nat :=
  sum_list_with (λ x, length (concat x)) xs.

(** Mean and std per bin out of the three totals. *)
Definition stats_of_totals (M : nat) (xs : list (tensor3 R)) : list R * list R :=
  let n := INR (row_count xs) in
  (map (λ m, (total (λ v, v) m xs / n)%R) (seq 0 M),
   map (λ m, sqrt (total (λ v, (v * v)%R) m xs / n
                   - (total (λ v, v) m xs / n) * (total (λ v, v) m xs / n)))
       (seq 0 M)).

(** Two files of one channel and one bin, of one and two frames. *)
Definition file_a : tensor3 R := [[[1%R]]].
Definition file_b : tensor3 R := [[[2%R]; [3%R]]].

(** The writes of the loop of [preprocess_data], in order: one record per
    file, and their effect on the files of the output directory. *)
Definition cache_writes (output_dir preprocess_mode : string)
    (es : list labeled_audio) (fs : list feature) : list (string * file) :=
  zip_with (λ e f, (cache_path output_dir preprocess_mode e,
                    features_record f (start_times e) (end_times e))) es fs.

Definition apply_writes (ws : list (string * file)) (m : gmap string file)
  : gmap string file :=
  fold_left (λ m w, <[w.1 := w.2]> m) ws m.

(** A file present on [one_file_disk], and one that is not. *)
Definition good_file : labeled_audio := LabeledAudio "a.wav" [] [] "a".
Definition bad_file : labeled_audio := LabeledAudio "missing.wav" [] [] "missing".

(** A stereo source of two samples, and a disk holding it at rate 4. *)
Definition stereo_source : sf_array := Sf2 (Nd2 2 [[1%R; 3%R]; [2%R; 4%R]]).

Definition stereo_disk (p : string) : option (sf_array * nat) :=
  if String.eqb p "s.wav" then Some (stereo_source, 4) else None.

(** Every sample of a 2D array is zero. *)
Definition all_zero2 (a : ndarray2) : Prop :=
  Forall (Forall (λ v, v = 0%R)) (rows a).

(** A disk holding three samples of silence on one channel. *)
Definition silent_disk (p : string) : option (sf_array * nat) :=
  if String.eqb p "silence.wav" then Some (Sf1 [0%R; 0%R; 0%R], 2) else None.

(** A file that can be read, is at the working rate and has at least one
    sample. *)
Definition readable (cfg : config) (soundfile_read : string → option (sf_array * nat))
    (e : labeled_audio) : Prop :=
  ∃ x, soundfile_read (audio_path e) = Some (x, working_sample_rate cfg)
       ∧ 1 ≤ length (rows (as_2d x)).

(** Where [preprocess_data] puts the debug image (lines 109-110). *)
Definition plot_path (output_mean_std_file : string) : string :=
  os_path_join (os_path_dirname output_mean_std_file) "data_sample.png".

(** A second entry for the file of [good_file], under the same name but
    with other labels. *)
Definition good_file_again : labeled_audio :=
  LabeledAudio "a.wav" [1%R] [2%R] "a".

(** The string has no slash. *)
Fixpoint no_slash (s : string) : bool :=
  match s with
  | EmptyString => true
  | String c s' => negb (Ascii.eqb c slash) && no_slash s'
  end.

(** ** The training loop of [main.py]

    The model, its loss and its optimizer are opaque: one pass of the
    loop body (lines 68-77) is a function [optimizer_step] on an abstract
    model state. The data generator is a function from the position to
    the batch found there, [None] once it is exhausted. The body of
    [eval] is a parameter as well; what is modelled of the call of line
    82 is the binding of its arguments to the parameters of line 14. *)

Inductive main_exn :=
| TypeError          (* a call that does not fit the signature *)
| FileExistsError.   (* [os.makedirs] on an existing path *)

Inductive outcome :=
| Returned
| Raised (e : main_exn)
| OutOfFuel.

(** Binding of a call with [npos] positional arguments and the keyword
    arguments [keywords] to the parameters [params], none of which has a
    default value: too many positional arguments, a keyword that names no
    parameter left to fill, or a parameter left without value raise
    [TypeError]. *)
Definition bind_arguments (params : list string) (npos : nat) (keywords : list string)
  : main_exn + unit :=
  let by_keyword := drop npos params in
  if length params <? npos then inl TypeError
  else if negb (forallb (λ k, existsb (String.eqb k) by_keyword) keywords)
  then inl TypeError
  else if negb (forallb (λ p, existsb (String.eqb p) keywords) by_keyword)
  then inl TypeError
  else inr tt.

(** Line 14: [def eval(model, data_generator, num_samples, outputs_dir,
    iteration, device)]. *)
Definition eval_params : list string :=
  ["model"; "data_generator"; "num_samples"; "outputs_dir"; "iteration"; "device"].

(** Line 82: [eval(model, data_generator, 10, outputs_dir=...,
    iterations=iterations, device=device)]. *)
Definition eval_call : main_exn + unit :=
  bind_arguments eval_params 3 ["outputs_dir"; "iterations"; "device"].

Section Train.
Variable batch : Type.
Variable model_state : Type.
(** Lines 68-77: forward pass, loss, backward pass, optimizer step. *)
Variable optimizer_step : batch → model_state → model_state.
(** [data_generator.generate_train()] *)
Variable generate_train : nat → option batch.

(** What [train] changes: its counter, the model, the learning rate of
    the parameter groups of the optimizer, the iterations a checkpoint
    was saved for, and the directories that exist. *)
Record train_state := TrainState {
  iterations : nat;
  model : model_state;
  lrs : list R;
  saved : list nat;
  tdirs : gset string
}.

(** The body of [eval], once its arguments are bound. *)
Variable eval_body : train_state → train_state * outcome.

(** Lines 67-99; [i] is the position in the generator. *)
Fixpoint train_loop (fuel : nat) (num_steps : nat) (i : nat) (st : train_state)
  : train_state * outcome :=
  match fuel with
  | 0 => (st, OutOfFuel)
  | S fuel' =>
      match generate_train i with
      | None => (st, Returned)
      | Some b =>
          let st := TrainState (iterations st + 1) (optimizer_step b (model st))
                               (lrs st) (saved st) (tdirs st) in
          let after_eval :=
            if iterations st mod 10 =? 0 then
              match eval_call with
              | inl e => (st, Raised e)
              | inr _ => eval_body st
              end
            else (st, Returned) in
          match after_eval with
          | (st, Returned) =>
              let st :=
                if iterations st mod 100 =? 0
                then TrainState (iterations st) (model st)
                       (map (λ lr, (lr * 0.95)%R) (lrs st)) (saved st) (tdirs st)
                else st in
              let st :=
                if iterations st mod 100 =? 0
                then TrainState (iterations st) (model st) (lrs st)
                       (saved st ++ [iterations st]) (tdirs st)
                else st in
              if iterations st =? num_steps then (st, Returned)
              else train_loop fuel' num_steps (S i) st
          | (st, o) => (st, o)
          end
      end
  end.

(** Lines 60-99. The optimizer has one parameter group, of learning rate
    [1e-3]; [os.makedirs] is called without [exist_ok]. *)
Definition train (fuel : nat) (m : model_state) (num_steps : nat) (outputs_dir : string)
    (dirs0 : gset string) : train_state * outcome :=
  let checkpoints := os_path_join outputs_dir "checkpoints" in
  let st := TrainState 0 m [1e-3%R] [] dirs0 in
  if decide (checkpoints ∈ dirs0) then (st, Raised FileExistsError)
  else train_loop fuel num_steps 0
         (TrainState 0 m [1e-3%R] [] ({[checkpoints; outputs_dir]} ∪ dirs0)).

(** The model after the batches at positions [i], ..., [i + n - 1]. *)
Fixpoint after_steps (i n : nat) (m : model_state) : model_state :=
  match n with
  | 0 => m
  | S n' =>
      match generate_train i with
      | Some b => after_steps (S i) n' (optimizer_step b m)
      | None => m
      end
  end.
End Train.

(** A generator of numbered batches that never ends, one that ends after
    three batches, and a model that counts its steps. *)
Definition endless_batches (i : nat) : option nat := Some i.
Definition three_batches (i : nat) : option nat := if i <? 3 then Some i else None.
Definition counting_step (b : nat) (m : nat) : nat := S m.
Definition no_eval (st : train_state nat) : train_state nat * outcome := (st, Returned).

(** * Properties *)

(** ** Audio loader *)

Lemma ncols_normalize_channels cfg x :
  ncols (normalize_channels cfg x) = audio_channels cfg.
Proof.
  unfold normalize_channels.
  destruct (ncols _ <? audio_channels cfg) eqn:E1; [reflexivity|].
  destruct (audio_channels cfg =? 1) eqn:E2.
  { apply Nat.eqb_eq in E2. simpl. lia. }
  destruct (audio_channels cfg <? ncols _) eqn:E3; simpl.
  - apply Nat.ltb_lt in E3. lia.
  - apply Nat.ltb_ge in E1, E3. lia.
Qed.

Lemma wf2_normalize_channels cfg x :
  wf_sf x → wf2 (normalize_channels cfg x).
Proof.
  intros Hwf.
  assert (Ha : wf2 (as_2d x)).
  { destruct x; simpl; [|exact Hwf].
    unfold wf2, reshape_col; simpl. apply Forall_forall.
    intros r Hr. apply list_elem_of_In, in_map_iff in Hr as (v & <- & _). reflexivity. }
  unfold normalize_channels. fold (as_2d x).
  destruct (ncols _ <? audio_channels cfg) eqn:E1.
  { unfold wf2, repeat_axis1; simpl. apply Forall_forall. intros r Hr.
    apply list_elem_of_In, in_map_iff in Hr as (v & <- & _). apply length_replicate. }
  destruct (audio_channels cfg =? 1) eqn:E2.
  { unfold wf2, reshape_col; simpl. apply Forall_forall. intros r Hr.
    apply list_elem_of_In, in_map_iff in Hr as (v & <- & _). reflexivity. }
  destruct (audio_channels cfg <? ncols _) eqn:E3; [|exact Ha].
  unfold wf2, slice_cols; simpl. apply Forall_forall. intros r Hr.
  apply list_elem_of_In, in_map_iff in Hr as (r0 & <- & Hin).
  apply list_elem_of_In in Hin.
  unfold wf2 in Ha. rewrite Forall_forall in Ha. specialize (Ha _ Hin).
  rewrite length_take. lia.
Qed.

Lemma array_T_ok (chans : list (list R)) n :
  chans ≠ [] → Forall (λ c, length c = n) chans →
  ∃ a, array_T chans = inr (Sf2 a) ∧ ncols a = length chans ∧ wf2 a
       ∧ length (rows a) = n.
Proof.
  intros Hne Hall. destruct chans as [|c0 cs]; [congruence|].
  unfold array_T.
  assert (Hc0 : length c0 = n) by (inversion Hall; assumption).
  replace (forallb _ (c0 :: cs)) with true.
  - eexists. split; [reflexivity|]. simpl. split; [reflexivity|]. split.
    + unfold wf2; simpl. apply Forall_forall. intros r Hr.
      apply list_elem_of_In, in_map_iff in Hr as (j & <- & _).
      simpl. now rewrite length_map.
    + rewrite length_map, length_seq. exact Hc0.
  - symmetry. apply forallb_forall. intros c Hc.
    apply Nat.eqb_eq. rewrite Forall_forall in Hall.
    rewrite Hc0. apply Hall, list_elem_of_In, Hc.
Qed.


(** C4. When no target rate is given, or the file already is at the
    target rate, the loader returns the channel-normalized samples
    themselves: the resampling stage is skipped. *)
Theorem read_multichannel_audio_same_rate
    cfg resample soundfile_read audio_path target_fs x sample_rate :
  soundfile_read audio_path = Some (x, sample_rate) →
  target_fs = None ∨ target_fs = Some sample_rate →
  read_multichannel_audio cfg resample soundfile_read audio_path target_fs
  = inr (Sf2 (normalize_channels cfg x)).
Proof.
  intros Hread Hfs. unfold read_multichannel_audio. rewrite Hread.
  destruct Hfs as [-> | ->]; [reflexivity|].
  now rewrite Nat.eqb_refl.
Qed.

Lemma hold_resample_length_determined : length_determined hold_resample.
Proof.
  intros o t y1 y2 Hlen. unfold hold_resample.
  rewrite !length_map, !length_seq. now rewrite Hlen.
Qed.


Lemma read_multichannel_audio_same_rate_witness :
  read_multichannel_audio small_cfg hold_resample one_file_disk "a.wav" (Some 2)
  = inr (Sf2 (normalize_channels small_cfg (Sf1 [1%R]))).
Proof.
  apply (read_multichannel_audio_same_rate small_cfg hold_resample one_file_disk
           "a.wav" (Some 2) (Sf1 [1%R]) 2).
  - reflexivity.
  - right. reflexivity.
Defined.

(** ** Multichannel STFT engine *)

Lemma rmapM_Forall {A B} (f : A → result B) (P : B → Prop) (l : list A) :
  Forall (λ x, ∃ y, f x = inr y ∧ P y) l →
  ∃ ys, rmapM f l = inr ys ∧ length ys = length l ∧ Forall P ys.
Proof.
  induction 1 as [|x l (y & Hy & HP) _ (ys & Hys & Hlen & HF)]; simpl.
  - exists []. auto.
  - exists (y :: ys). rewrite Hy, Hys. simpl. auto.
Qed.

Lemma length_np_hanning M : length (np_hanning M) = M.
Proof.
  unfold np_hanning.
  destruct (M <? 1) eqn:E0; [apply Nat.ltb_lt in E0; simpl; lia|].
  destruct (M =? 1) eqn:E1; [apply Nat.eqb_eq in E1; simpl; lia|].
  now rewrite length_map, length_seq.
Qed.

Lemma np_pad_reflect_ok y p :
  y ≠ [] → ∃ ypad, np_pad_reflect y p = inr ypad ∧ length ypad = length y + 2 * p.
Proof.
  intros Hy. unfold np_pad_reflect. destruct y as [|y0 y']; [congruence|].
  eexists. split; [reflexivity|]. now rewrite length_map, length_seq.
Qed.

Lemma pad_center_ok w size :
  length w ≤ size → ∃ w', pad_center w size = inr w' ∧ length w' = size.
Proof.
  intros Hle. unfold pad_center.
  replace (size <? length w) with false by (symmetry; apply Nat.ltb_ge; lia).
  eexists. split; [reflexivity|].
  rewrite !length_app, !length_replicate.
  pose proof (Nat.Div0.mul_div_le (size - length w) 2).
  lia.
Qed.

Lemma stft_ok y n_fft win_length hop_length window :
  y ≠ [] → 0 < n_fft → length window = win_length → win_length ≤ n_fft →
  0 < hop_length →
  ∃ D, stft y n_fft win_length hop_length window = inr D
       ∧ length D = frame_count (length y + 2 * (n_fft / 2)) n_fft hop_length
       ∧ Forall (λ r, length r = n_fft / 2 + 1) D.
Proof.
  intros Hy Hn Hw Hwn Hh. unfold stft.
  replace (n_fft =? 0) with false by (symmetry; apply Nat.eqb_neq; lia).
  replace (length window =? win_length) with true by (symmetry; now apply Nat.eqb_eq).
  cbn [negb orb].
  destruct (pad_center_ok window n_fft) as (w' & -> & Hw'); [lia|].
  destruct (np_pad_reflect_ok y (n_fft / 2) Hy) as (ypad & -> & Hyp).
  cbn [rbind]. rewrite Hyp.
  assert (Hlen : 1 ≤ length y) by (destruct y; simpl; [congruence|lia]).
  pose proof (Nat.div_mod_eq n_fft 2) as Hdm.
  pose proof (Nat.mod_upper_bound n_fft 2) as Hmod.
  replace (length y + 2 * (n_fft / 2) <? n_fft) with false
    by (symmetry; apply Nat.ltb_ge; lia).
  replace (hop_length <? 1) with false by (symmetry; apply Nat.ltb_ge; lia).
  cbn [orb]. eexists. split; [reflexivity|]. split.
  - now rewrite length_map, length_seq.
  - apply Forall_forall. intros r Hr.
    apply list_elem_of_In, in_map_iff in Hr as (t & <- & _).
    now rewrite length_map, length_seq.
Qed.

Lemma multichannel_stft_ok cfg a :
  valid_config cfg → 1 ≤ length (rows a) →
  ∃ spec, multichannel_stft cfg (Sf2 a) = inr spec
          ∧ length spec = ncols a
          ∧ Forall (λ ch, length ch = stft_frames cfg (length (rows a))
                          ∧ Forall (λ r, length r = NFFT cfg / 2 + 1) ch) spec.
Proof.
  intros (Hn & Hw & Hh) Hrows. unfold multichannel_stft.
  destruct (rmapM_Forall
              (λ c, stft (column a c) (NFFT cfg) (frame_size cfg) (hop_size cfg)
                         (np_hanning (frame_size cfg)))
              (λ ch, length ch = stft_frames cfg (length (rows a))
                     ∧ Forall (λ r, length r = NFFT cfg / 2 + 1) ch)
              (seq 0 (ncols a))) as (spec & Hs & Hlen & HF).
  - apply Forall_forall. intros c _.
    destruct (stft_ok (column a c) (NFFT cfg) (frame_size cfg) (hop_size cfg)
                (np_hanning (frame_size cfg))) as (D & HD & HlenD & HrD); auto.
    + unfold column. destruct (rows a); simpl in *; [lia|discriminate].
    + apply length_np_hanning.
    + exists D. split; [exact HD|]. split; [|exact HrD].
      rewrite HlenD. unfold stft_frames, column. now rewrite length_map.
  - exists spec. rewrite length_seq in Hlen. auto.
Qed.

Lemma stft_frames_even cfg n :
  0 < NFFT cfg → Nat.even (NFFT cfg) = true →
  stft_frames cfg n = 1 + n / hop_size cfg.
Proof.
  intros Hn He. unfold stft_frames, frame_count.
  apply Nat.even_spec in He as [k Hk].
  rewrite Hk, (Nat.mul_comm 2 k), Nat.div_mul by lia.
  do 2 f_equal. lia.
Qed.

Lemma stft_frames_odd cfg n :
  0 < hop_size cfg → 1 ≤ n → Nat.odd (NFFT cfg) = true →
  stft_frames cfg n = ceil_div n (hop_size cfg).
Proof.
  intros Hh Hn Ho. unfold stft_frames, frame_count, ceil_div.
  apply Nat.odd_spec in Ho as [k Hk].
  assert (Hdiv : NFFT cfg / 2 = k).
  { rewrite Hk, Nat.add_comm, Nat.mul_comm, Nat.div_add by lia. reflexivity. }
  rewrite Hdiv.
  replace (n + 2 * k - NFFT cfg) with (n - 1) by lia.
  replace (n + hop_size cfg - 1) with (n - 1 + 1 * hop_size cfg) by lia.
  rewrite Nat.div_add by lia. lia.
Qed.

(** The frame count the specification gives, [ceil(samples / hop_size)],
    is one short of the frames produced when the FFT size is even and the
    hop divides the number of samples: two samples with a hop of one and
    an FFT of two points give three frames per channel. *)
Lemma stft_frame_count_counterexample :
  ∃ spec, multichannel_stft small_cfg two_samples = inr spec
          ∧ length spec = 2
          ∧ Forall (λ ch, length ch = 3
                          ∧ length ch ≠ ceil_div 2 (hop_size small_cfg)) spec.
Proof.
  destruct (multichannel_stft_ok small_cfg (Nd2 2 [[1%R; 1%R]; [0%R; 0%R]]))
    as (spec & Hs & Hlen & HF).
  - unfold valid_config; simpl; lia.
  - simpl; lia.
  - exists spec. split; [exact Hs|]. split; [exact Hlen|].
    eapply Forall_impl; [exact HF|]. intros ch [Hch _].
    rewrite Hch. vm_compute. split; [reflexivity|discriminate].
Qed.

(** ** Log-mel projector *)

Lemma rmapM_total {A B} (f : A → result B) (g : A → B) (l : list A) :
  Forall (λ x, f x = inr (g x)) l → rmapM f l = inr (map g l).
Proof.
  induction 1 as [|x l Hx _ IH]; simpl; [reflexivity|].
  now rewrite Hx, IH.
Qed.

Lemma dot_row_ok MEL F (row : list complex) :
  length (rows MEL) = F → length row = F →
  dot_row (map abs_pow2 row) MEL = inr (mel_power MEL row).
Proof.
  intros HM Hr. unfold dot_row. rewrite length_map, HM, Hr, Nat.eqb_refl.
  reflexivity.
Qed.

Lemma mel_rows_ok MEL F (ch : list (list complex)) :
  length (rows MEL) = F → Forall (λ r, length r = F) ch →
  rmapM (λ row, dot_row row MEL) (map (map abs_pow2) ch)
  = inr (map (mel_power MEL) ch).
Proof.
  intros HM. induction 1 as [|row ch Hrow _ IH]; simpl; [reflexivity|].
  now rewrite (dot_row_ok MEL F row HM Hrow), IH.
Qed.

Lemma mel_channels_ok MEL F spec :
  length (rows MEL) = F → freq_bins F spec →
  rmapM (rmapM (λ row, dot_row row MEL)) (map (map (map abs_pow2)) spec)
  = inr (map (map (mel_power MEL)) spec).
Proof.
  intros HM. induction 1 as [|ch spec Hch _ IH]; simpl; [reflexivity|].
  now rewrite (mel_rows_ok MEL F ch HM Hch), IH.
Qed.

Lemma log_mel_ok MEL F spec :
  length (rows MEL) = F → freq_bins F spec →
  multichannel_complex_to_log_mel MEL spec
  = inr (map (map (λ row, map (power_to_db 1.0 1e-10) (mel_power MEL row))) spec).
Proof.
  intros HM Hspec. unfold multichannel_complex_to_log_mel. cbv zeta.
  rewrite (mel_channels_ok MEL F spec HM Hspec). cbn [rbind].
  rewrite map_map. f_equal. apply map_ext. intros ch.
  now rewrite map_map.
Qed.

Lemma ln_10_pos : (0 < ln 10)%R.
Proof. rewrite <- ln_1. apply ln_increasing; lra. Qed.

Lemma log10_amin : log10 1e-10 = (-10)%R.
Proof.
  unfold log10. replace 1e-10%R with (/ 10 ^ 10)%R by lra.
  rewrite ln_Rinv by (apply pow_lt; lra).
  rewrite ln_pow by lra. simpl INR.
  pose proof ln_10_pos. field. lra.
Qed.

Lemma log10_le x y : (0 < x)%R → (x <= y)%R → (log10 x <= log10 y)%R.
Proof.
  intros Hx [Hlt | ->]; [|lra].
  unfold log10. pose proof ln_10_pos as H10.
  pose proof (ln_increasing x y Hx Hlt) as Hln.
  apply Rmult_le_compat_r; [|lra].
  apply Rlt_le, Rinv_0_lt_compat, H10.
Qed.

Lemma power_to_db_eq p :
  power_to_db 1.0 1e-10 p = (10 * log10 (Rmax 1e-10 p))%R.
Proof.
  unfold power_to_db.
  replace (Rabs 1.0) with 1%R by (rewrite Rabs_right; lra).
  rewrite (Rmax_right 1e-10 1) by lra.
  unfold log10 at 2. rewrite ln_1. lra.
Qed.

Lemma power_to_db_ge p : (-100 <= power_to_db 1.0 1e-10 p)%R.
Proof.
  rewrite power_to_db_eq.
  pose proof (log10_le 1e-10 (Rmax 1e-10 p)) as H.
  rewrite log10_amin in H.
  assert (-10 <= log10 (Rmax 1e-10 p))%R by (apply H; [lra|apply Rmax_l]).
  lra.
Qed.

Lemma power_to_db_clamped p :
  (p <= 1e-10)%R → power_to_db 1.0 1e-10 p = (-100)%R.
Proof.
  intros Hp. rewrite power_to_db_eq, Rmax_left by exact Hp.
  rewrite log10_amin. lra.
Qed.

Lemma power_to_db_unclipped p :
  (1e-10 <= p)%R → power_to_db 1.0 1e-10 p = (10 * log10 p)%R.
Proof.
  intros Hp. now rewrite power_to_db_eq, Rmax_right by exact Hp.
Qed.

Lemma Rsum_zeros (l : list R) : Forall (λ x, x = 0%R) l → Rsum l = 0%R.
Proof.
  induction 1 as [|x l -> _ IH]; simpl; [reflexivity|]. rewrite IH. lra.
Qed.

Lemma mel_power_zero MEL (row : list complex) :
  Forall (λ z, z = (0%R, 0%R)) row →
  Forall (λ p, p = 0%R) (mel_power MEL row).
Proof.
  intros Hrow. unfold mel_power. rewrite Forall_map.
  apply Forall_forall. intros m _. cbn beta.
  apply Rsum_zeros. generalize (column MEL m).
  induction Hrow as [|z row -> _ IH]; intros col; simpl; [constructor|].
  destruct col as [|c col]; [constructor|]. constructor; [|apply IH].
  unfold abs_pow2. simpl. rewrite Rmult_0_l, Rplus_0_l, sqrt_0. lra.
Qed.

(** C2 (amended). On a signal of [n >= 1] samples the centered STFT
    yields [1 + (n + 2 * (NFFT // 2) - NFFT) // hop_size] frames per
    channel, and so does the log-mel feature: this is [1 + n // hop_size]
    for an even FFT size and [ceil(n / hop_size)] for an odd one. *)
Theorem stft_frame_count cfg MEL a :
  valid_config cfg →
  length (rows MEL) = NFFT cfg / 2 + 1 →
  1 ≤ length (rows a) →
  ∃ spec lm,
    multichannel_stft cfg (Sf2 a) = inr spec
    ∧ multichannel_complex_to_log_mel MEL spec = inr lm
    ∧ length spec = ncols a ∧ length lm = ncols a
    ∧ Forall (λ ch, length ch = stft_frames cfg (length (rows a))) spec
    ∧ Forall (λ ch, length ch = stft_frames cfg (length (rows a))) lm
    ∧ stft_frames cfg (length (rows a))
      = 1 + (length (rows a) + 2 * (NFFT cfg / 2) - NFFT cfg) / hop_size cfg
    ∧ (Nat.even (NFFT cfg) = true →
       stft_frames cfg (length (rows a)) = 1 + length (rows a) / hop_size cfg)
    ∧ (Nat.odd (NFFT cfg) = true →
       stft_frames cfg (length (rows a)) = ceil_div (length (rows a)) (hop_size cfg)).
Proof.
  intros Hcfg HM Hn.
  destruct (multichannel_stft_ok cfg a Hcfg Hn) as (spec & Hs & Hlen & HF).
  assert (Hbins : freq_bins (NFFT cfg / 2 + 1) spec).
  { eapply Forall_impl; [exact HF|]. intros ch [_ H]. exact H. }
  exists spec. eexists. split; [exact Hs|].
  split; [apply (log_mel_ok MEL _ spec HM Hbins)|].
  split; [exact Hlen|]. split; [now rewrite length_map|].
  split; [eapply Forall_impl; [exact HF|]; intros ch [H _]; exact H|].
  split.
  { rewrite Forall_map. eapply Forall_impl; [exact HF|].
    intros ch [H _]. cbn beta. now rewrite length_map. }
  destruct Hcfg as (HN & _ & Hh).
  split; [reflexivity|]. split.
  - intros He. now apply stft_frames_even.
  - intros Ho. now apply stft_frames_odd.
Qed.

Lemma stft_frame_count_witness :
  ∃ spec lm,
    multichannel_stft small_cfg two_samples = inr spec
    ∧ multichannel_complex_to_log_mel small_mel spec = inr lm
    ∧ length spec = 2 ∧ length lm = 2
    ∧ Forall (λ ch, length ch = stft_frames small_cfg 2) spec
    ∧ Forall (λ ch, length ch = stft_frames small_cfg 2) lm
    ∧ stft_frames small_cfg 2 = 1 + (2 + 2 * (2 / 2) - 2) / 1
    ∧ (Nat.even 2 = true → stft_frames small_cfg 2 = 1 + 2 / 1)
    ∧ (Nat.odd 2 = true → stft_frames small_cfg 2 = ceil_div 2 1).
Proof.
  apply (stft_frame_count small_cfg small_mel (Nd2 2 [[1%R; 1%R]; [0%R; 0%R]])).
  - unfold valid_config; simpl; lia.
  - reflexivity.
  - simpl; lia.
Defined.

(** C8. On every signal with at least one sample, shorter than a frame or
    not, the STFT succeeds and gives every channel at least one frame. *)
Theorem multichannel_stft_short_signal cfg a :
  valid_config cfg →
  1 ≤ length (rows a) →
  ∃ spec, multichannel_stft cfg (Sf2 a) = inr spec
          ∧ length spec = ncols a
          ∧ Forall (λ ch, 1 ≤ length ch) spec.
Proof.
  intros Hcfg Hn.
  destruct (multichannel_stft_ok cfg a Hcfg Hn) as (spec & Hs & Hlen & HF).
  exists spec. split; [exact Hs|]. split; [exact Hlen|].
  eapply Forall_impl; [exact HF|]. intros ch [H _].
  rewrite H. unfold stft_frames, frame_count. lia.
Qed.

Lemma multichannel_stft_short_signal_witness :
  length (rows (Nd2 2 [[1%R; 1%R]])) < frame_size small_cfg
  ∧ ∃ spec, multichannel_stft small_cfg one_sample = inr spec
            ∧ length spec = 2
            ∧ Forall (λ ch, 1 ≤ length ch) spec.
Proof.
  split; [simpl; lia|].
  apply (multichannel_stft_short_signal small_cfg (Nd2 2 [[1%R; 1%R]])).
  - unfold valid_config; simpl; lia.
  - simpl; lia.
Defined.



(** ** Corpus statistics accumulator *)

Lemma nth_map_seq {B} (f : nat → B) (n m : nat) (d : B) :
  m < n → nth m (map f (seq 0 n)) d = f m.
Proof.
  intros Hm. rewrite (nth_indep _ d (f 0)) by now rewrite length_map, length_seq.
  rewrite (map_nth f (seq 0 n) 0 m), seq_nth by exact Hm. reflexivity.
Qed.

Lemma has_shape_concat {A} C T M (t : tensor3 A) :
  has_shape C T M t →
  length (concat t) = C * T ∧ Forall (λ r, length r = M) (concat t).
Proof.
  intros [Hlen HF]. subst C. induction HF as [|ch t [HT Hrows] _ [IHl IHr]]; simpl.
  - split; [reflexivity|constructor].
  - split; [rewrite length_app; lia|]. apply Forall_app. auto.
Qed.

Lemma has_shape_hd {A} C T M (t : tensor3 A) :
  has_shape C T M t → 1 ≤ C → 1 ≤ T → length (hd [] (concat t)) = M.
Proof.
  intros [Hlen HF] HC HT. destruct HF as [|ch t [HchT Hrows] _]; simpl in *; [lia|].
  destruct Hrows as [|r ch Hr _]; simpl in *; [lia|exact Hr].
Qed.

(** The statistics of a 3D feature do not keep the channel axis: on two
    channels holding [0] and [2] the mean is the single value [1], of
    shape [[1]], where a per-channel mean would be [[[0]; [2]]], of
    shape [[2; 1]]. *)
Lemma calculate_scalar_of_tensor_counterexample :
  ∃ mean std,
    calculate_scalar_of_tensor (Arr3 two_channel_feature) = inr (mean, std)
    ∧ mean = Arr1 [1%R]
    ∧ shape mean = [1]
    ∧ shape (Arr2 (spec_per_channel_mean two_channel_feature)) = [2; 1]
    ∧ mean ≠ Arr2 (spec_per_channel_mean two_channel_feature).
Proof.
  eexists. eexists. split; [reflexivity|].
  assert (Hm : mean_rows (concat two_channel_feature) = [1%R]).
  { unfold mean_rows, two_channel_feature. simpl. f_equal. lra. }
  rewrite Hm. split; [reflexivity|]. split; [reflexivity|].
  split; [reflexivity|]. discriminate.
Qed.

(** C1 (amended). On a 3D feature of shape [channel, time_frame, mel_bin]
    the accumulator reduces over the channel and the time axes together:
    mean and std are 1D arrays with one value per mel bin, the mean of bin
    [m] being the sum of all its entries over the [C * T] rows, and the
    std the root of the mean squared deviation over the same rows. *)
Theorem calculate_scalar_of_tensor_3d (t : tensor3 R) C T M :
  has_shape C T M t → 1 ≤ C → 1 ≤ T →
  ∃ mean std,
    calculate_scalar_of_tensor (Arr3 t) = inr (Arr1 mean, Arr1 std)
    ∧ shape (Arr1 mean) = [M] ∧ shape (Arr1 std) = [M]
    ∧ ∀ m, m < M →
        nth m mean 0%R = (Rsum (bin_values m (concat t)) / INR (C * T))%R
        ∧ nth m std 0%R
          = sqrt (Rsum (map (λ x, ((x - nth m mean 0) * (x - nth m mean 0))%R)
                            (bin_values m (concat t)))
                  / INR (C * T)).
Proof.
  intros Hsh HC HT.
  destruct (has_shape_concat C T M t Hsh) as [Hlen _].
  pose proof (has_shape_hd C T M t Hsh HC HT) as Hhd.
  eexists. eexists. split; [reflexivity|].
  split; [unfold shape, mean_rows; now rewrite length_map, length_seq, Hhd|].
  split; [unfold shape, std_rows; now rewrite length_map, length_seq, Hhd|].
  intros m Hm.
  assert (Hmu : nth m (mean_rows (concat t)) 0%R
                = (Rsum (bin_values m (concat t)) / INR (C * T))%R).
  { unfold mean_rows. rewrite Hhd, Hlen, nth_map_seq by exact Hm. reflexivity. }
  split; [exact Hmu|].
  unfold std_rows. rewrite Hhd, Hlen, nth_map_seq by exact Hm. reflexivity.
Qed.

Lemma calculate_scalar_of_tensor_3d_witness :
  ∃ mean std,
    calculate_scalar_of_tensor (Arr3 two_channel_feature) = inr (Arr1 mean, Arr1 std)
    ∧ shape (Arr1 mean) = [1] ∧ shape (Arr1 std) = [1]
    ∧ ∀ m, m < 1 →
        nth m mean 0%R
        = (Rsum (bin_values m (concat two_channel_feature)) / INR (2 * 1))%R
        ∧ nth m std 0%R
          = sqrt (Rsum (map (λ x, ((x - nth m mean 0) * (x - nth m mean 0))%R)
                            (bin_values m (concat two_channel_feature)))
                  / INR (2 * 1)).
Proof.
  apply (calculate_scalar_of_tensor_3d two_channel_feature 2 1 1).
  - unfold has_shape, two_channel_feature. split; [reflexivity|].
    repeat constructor.
  - lia.
  - lia.
Defined.

Lemma Rsum_app l1 l2 : Rsum (l1 ++ l2) = (Rsum l1 + Rsum l2)%R.
Proof. induction l1 as [|x l1 IH]; simpl; [lra|]. rewrite IH. lra. Qed.

Lemma Rsum_perm l1 l2 : Permutation l1 l2 → Rsum l1 = Rsum l2.
Proof.
  induction 1 as [|x l l' _ IH|x y l|l l' l'' _ IH1 _ IH2]; simpl;
    [reflexivity| |lra|congruence].
  now rewrite IH.
Qed.

Lemma colsum_app g m rs1 rs2 :
  colsum g m (rs1 ++ rs2) = (colsum g m rs1 + colsum g m rs2)%R.
Proof. unfold colsum, bin_values. now rewrite !map_app, Rsum_app. Qed.

Lemma zip_with_map_same {B C D E} (h : C → D → E) (f : B → C) (g : B → D) l :
  zip_with h (map f l) (map g l) = map (λ x, h (f x) (g x)) l.
Proof. induction l as [|x l IH]; simpl; [reflexivity|]. now rewrite IH. Qed.

Lemma zip_app_totals g m (x y : tensor3 R) :
  length x = length y →
  colsum g m (concat (zip_with app x y))
  = (colsum g m (concat x) + colsum g m (concat y))%R
  ∧ length (concat (zip_with app x y)) = length (concat x) + length (concat y).
Proof.
  revert y. induction x as [|cx x IH]; intros [|cy y] Hlen; simpl in *; try lia.
  - split; [unfold colsum; simpl; lra|reflexivity].
  - destruct (IH y) as [IHs IHl]; [lia|].
    rewrite !colsum_app, IHs, !length_app, IHl. split; [lra|lia].
Qed.

Lemma zip_app_shape C T1 T2 M (x y : tensor3 R) :
  has_shape C T1 M x → has_shape C T2 M y →
  has_shape C (T1 + T2) M (zip_with app x y).
Proof.
  intros [Hlx Hx] [Hly Hy]. subst C. revert y Hly Hy.
  induction Hx as [|cx x [HcT Hcr] _ IH]; intros [|cy y] Hly Hy; simpl in *; try lia.
  - split; [reflexivity|constructor].
  - inversion Hy as [|? ? [HyT Hyr] Hy']; subst.
    destruct (IH y) as [Hl HF]; [lia|exact Hy'|].
    split; [simpl; lia|]. constructor; [|exact HF].
    split; [rewrite length_app; lia|]. apply Forall_app. auto.
Qed.

Lemma has_shape_bins C T M (x : tensor3 R) :
  has_shape C T M x → 1 ≤ C → 1 ≤ T → bins x = M.
Proof.
  intros [Hlen HF] HC HT. unfold bins.
  destruct HF as [|ch t [HchT Hrows] _]; simpl in *; [lia|].
  destruct Hrows as [|r ch Hr _]; simpl in *; [lia|exact Hr].
Qed.

Lemma concat_axis1_ok C M xs :
  xs ≠ [] → 1 ≤ C → files_shape C M xs →
  ∃ t T, concat_axis1 xs = inr t ∧ 1 ≤ T ∧ has_shape C T M t
         ∧ (∀ g m, colsum g m (concat t) = total g m xs)
         ∧ length (concat t) = row_count xs.
Proof.
  intros Hne HC HF. induction HF as [|x xs (T & HT & Hx) HF IH]; [congruence|].
  destruct xs as [|x' xs'].
  - exists x, T. simpl. split; [reflexivity|]. split; [exact HT|].
    split; [exact Hx|]. unfold total, row_count. simpl.
    split; [intros; lra|lia].
  - destruct IH as (r & T' & Hr & HT' & Hrs & Hsum & Hcnt); [discriminate|].
    exists (zip_with app x r), (T + T').
    change (concat_axis1 (x :: x' :: xs'))
      with (rbind (concat_axis1 (x' :: xs')) (λ r,
              if (length x =? length r) && (bins x =? bins r)
              then inr (zip_with app x r) else inl ValueError)).
    rewrite Hr. cbn [rbind].
    rewrite (has_shape_bins C T M x Hx HC HT), (has_shape_bins C T' M r Hrs HC HT').
    destruct Hx as [Hlx Hx'], Hrs as [Hlr Hrs'].
    rewrite Hlx, Hlr, !Nat.eqb_refl. cbn [andb].
    split; [reflexivity|]. split; [lia|].
    split; [apply zip_app_shape; split; assumption|].
    split.
    + intros g m. destruct (zip_app_totals g m x r) as [-> _]; [lia|].
      rewrite Hsum. unfold total. simpl. reflexivity.
    + destruct (zip_app_totals (λ v, v) 0 x r) as [_ ->]; [lia|].
      rewrite Hcnt. unfold row_count. simpl. reflexivity.
Qed.

Lemma Rsum_sq_dev (a : R) (l : list R) :
  Rsum (map (λ x, ((x - a) * (x - a))%R) l)
  = (Rsum (map (λ v, (v * v)%R) l) - 2 * a * Rsum l + INR (length l) * (a * a))%R.
Proof.
  induction l as [|x l IH]; [simpl; lra|].
  cbn [map Rsum fold_right length]. fold (Rsum (map (λ x0, ((x0 - a) * (x0 - a))%R) l)).
  fold (Rsum (map (λ v, (v * v)%R) l)). fold (Rsum l).
  rewrite IH, S_INR. lra.
Qed.

(** Mean and std of a block of rows out of its sums, sums of squares and
    row count. *)
Lemma stats_of_rows (rs : list (list R)) M :
  1 ≤ length rs → length (hd [] rs) = M →
  mean_rows rs = map (λ m, (colsum (λ v, v) m rs / INR (length rs))%R) (seq 0 M)
  ∧ std_rows rs
    = map (λ m, sqrt (colsum (λ v, (v * v)%R) m rs / INR (length rs)
                      - (colsum (λ v, v) m rs / INR (length rs))
                        * (colsum (λ v, v) m rs / INR (length rs))))
          (seq 0 M).
Proof.
  intros Hn HM.
  assert (Hmean : mean_rows rs
            = map (λ m, (colsum (λ v, v) m rs / INR (length rs))%R) (seq 0 M)).
  { unfold mean_rows. rewrite HM. apply map_ext. intros m.
    unfold colsum. now rewrite map_id. }
  split; [exact Hmean|].
  unfold std_rows. rewrite HM. apply map_ext_in. intros m Hm.
  apply in_seq in Hm. rewrite Hmean, nth_map_seq by lia.
  f_equal. cbn [sabs2 ssub Scalar_R].
  set (a := (colsum (λ v, v) m rs / INR (length rs))%R).
  rewrite Rsum_sq_dev. unfold bin_values at 3. rewrite length_map.
  assert (HN : (INR (length rs) <> 0)%R) by (apply not_0_INR; lia).
  assert (Hs : Rsum (bin_values m rs) = (a * INR (length rs))%R).
  { unfold a, colsum. rewrite map_id. field. exact HN. }
  rewrite Hs. unfold colsum. field. exact HN.
Qed.

Lemma total_cons g m x xs :
  total g m (x :: xs) = (colsum g m (concat x) + total g m xs)%R.
Proof. reflexivity. Qed.

Lemma fold_merge_totals M xs (fS fSS : nat → R) n :
  Forall (λ x, bins x = M) xs →
  fold_left merge (map file_accum xs)
    (Accum (map fS (seq 0 M)) (map fSS (seq 0 M)) n)
  = Accum (map (λ m, (fS m + total (λ v, v) m xs)%R) (seq 0 M))
          (map (λ m, (fSS m + total (λ v, (v * v)%R) m xs)%R) (seq 0 M))
          (n + row_count xs).
Proof.
  intros HF. revert fS fSS n.
  induction HF as [|x xs Hx _ IH]; intros fS fSS n.
  - simpl. f_equal; [apply map_ext; intros; unfold total; simpl; lra
                    |apply map_ext; intros; unfold total; simpl; lra
                    |unfold row_count; simpl; lia].
  - cbn [map fold_left]. unfold merge at 2, file_accum.
    cbn [acc_sum acc_sumsq acc_count]. rewrite Hx, !zip_with_map_same, IH.
    f_equal.
    + apply map_ext. intros m. rewrite total_cons.
      unfold colsum at 1. rewrite map_id. lra.
    + apply map_ext. intros m. rewrite total_cons.
      unfold colsum at 1. lra.
    + unfold row_count. simpl. lia.
Qed.

Lemma files_shape_bins C M xs :
  1 ≤ C → files_shape C M xs → Forall (λ x, bins x = M) xs.
Proof.
  intros HC HF. eapply Forall_impl; [exact HF|].
  intros x (T & HT & Hx). now apply (has_shape_bins C T M).
Qed.

Lemma concatenated_stats_totals C M xs :
  xs ≠ [] → 1 ≤ C → files_shape C M xs →
  concatenated_stats xs
  = inr (Arr1 (stats_of_totals M xs).1, Arr1 (stats_of_totals M xs).2).
Proof.
  intros Hne HC HF.
  destruct (concat_axis1_ok C M xs Hne HC HF) as (t & T & Ht & HT & Hsh & Hsum & Hcnt).
  unfold concatenated_stats. rewrite Ht. cbn [rbind calculate_scalar_of_tensor].
  destruct (has_shape_concat C T M t Hsh) as [Hlen _].
  destruct (stats_of_rows (concat t) M) as [-> ->].
  - rewrite Hlen. nia.
  - now apply (has_shape_hd C T M).
  - unfold stats_of_totals. cbn [fst snd]. rewrite Hcnt.
    do 3 f_equal; apply map_ext; intros m; now rewrite !Hsum.
Qed.

Lemma streaming_stats_totals C M xs :
  xs ≠ [] → 1 ≤ C → files_shape C M xs →
  streaming_stats xs = Some (stats_of_totals M xs).
Proof.
  intros Hne HC HF. destruct xs as [|x xs]; [congruence|].
  pose proof (files_shape_bins C M _ HC HF) as Hb.
  pose proof (Forall_inv Hb) as Hx. pose proof (Forall_inv_tail Hb) as Hxs.
  cbn beta in Hx.
  unfold streaming_stats. f_equal. unfold file_accum at 2.
  rewrite Hx, (fold_merge_totals _ xs _ _ _ Hxs).
  unfold finalize, stats_of_totals. cbn [acc_sum acc_sumsq acc_count fst snd].
  rewrite zip_with_map_same, map_map.
  assert (Hn : length (concat x) + row_count xs = row_count (x :: xs)) by reflexivity.
  rewrite Hn. f_equal; apply map_ext; intros m; unfold total, colsum; simpl;
    rewrite map_id; reflexivity.
Qed.

Lemma stats_of_totals_perm M xs ys :
  Permutation xs ys → stats_of_totals M xs = stats_of_totals M ys.
Proof.
  intros HP.
  assert (Ht : ∀ g m, total g m xs = total g m ys).
  { intros g m. unfold total. apply Rsum_perm, Permutation_map, HP. }
  assert (Hc : row_count xs = row_count ys).
  { unfold row_count. now rewrite HP. }
  unfold stats_of_totals. rewrite Hc.
  f_equal; apply map_ext; intros m; now rewrite !Ht.
Qed.

Lemma mapM_as_real_LogMel xs : mapM as_real (map LogMel xs) = Some xs.
Proof. induction xs as [|x xs IH]; simpl; [reflexivity|]. now rewrite IH. Qed.

Lemma feature_statistics_LogMel xs :
  rbind (concatenate_features (map LogMel xs)) feature_statistics
  = rbind (concatenated_stats xs) (λ ms, inr (VReal ms.1, VReal ms.2)).
Proof.
  unfold concatenate_features, concatenated_stats.
  rewrite mapM_as_real_LogMel.
  destruct (concat_axis1 xs) as [e|t]; reflexivity.
Qed.



(** ** Feature cache writer *)

Lemma apply_writes_union ws (m : gmap string file) :
  apply_writes ws m = list_to_map (reverse ws) ∪ m.
Proof.
  revert m. induction ws as [|[p c] ws IH]; intros m.
  - simpl. now rewrite (left_id_L ∅ (∪)).
  - change (apply_writes ((p, c) :: ws) m) with (apply_writes ws (<[p := c]> m)).
    rewrite IH, reverse_cons, list_to_map_app. simpl.
    rewrite <- (assoc_L (∪)). f_equal.
    now rewrite insert_empty, <- insert_union_singleton_l.
Qed.

Lemma apply_writes_twice ws (m : gmap string file) :
  apply_writes ws (apply_writes ws m) = apply_writes ws m.
Proof.
  rewrite !apply_writes_union, (assoc_L (∪)). f_equal. apply (idemp_L (∪)).
Qed.

Section CacheWriter.
Variable cfg : config.
Variable MEL_FILTER_BANK_MATRIX : ndarray2.
Variable resample : nat → nat → list R → list R.
Variable soundfile_read : string → option (sf_array * nat).

Local Abbreviation compute :=
  (compute_feature cfg MEL_FILTER_BANK_MATRIX resample soundfile_read).
Local Abbreviation loop :=
  (process_files cfg MEL_FILTER_BANK_MATRIX resample soundfile_read).

Lemma process_files_ok es fs output_dir mode acc s :
  rmapM (λ e, compute (audio_path e) mode) es = inr fs →
  loop es output_dir mode acc s
  = (Fs (apply_writes (cache_writes output_dir mode es fs) (files s)) (dirs s),
     inr (acc ++ fs)).
Proof.
  revert fs acc s. induction es as [|e es IH]; intros fs acc s Hfs.
  - simpl in Hfs. injection Hfs as <-. simpl. unfold ret.
    rewrite app_nil_r. now destruct s.
  - simpl in Hfs. destruct (compute (audio_path e) mode) as [err|f] eqn:Hf;
      [discriminate|].
    simpl in Hfs.
    destruct (rmapM (λ e, compute (audio_path e) mode) es) as [err|fs'] eqn:Hfs';
      [discriminate|].
    simpl in Hfs. injection Hfs as <-.
    cbn [process_files]. unfold bind, lift, write_file. rewrite Hf.
    rewrite (IH fs' (acc ++ [f]) _ eq_refl). cbn [files dirs].
    now rewrite <- app_assoc.
Qed.

Lemma process_files_fail es1 fs1 e err es2 output_dir mode acc s :
  rmapM (λ e, compute (audio_path e) mode) es1 = inr fs1 →
  compute (audio_path e) mode = inl err →
  loop (es1 ++ e :: es2) output_dir mode acc s
  = (Fs (apply_writes (cache_writes output_dir mode es1 fs1) (files s)) (dirs s),
     inl err).
Proof.
  intros Hfs He. revert fs1 acc s Hfs.
  induction es1 as [|e1 es1 IH]; intros fs1 acc s Hfs.
  - simpl in Hfs. injection Hfs as <-. simpl.
    unfold bind, lift. rewrite He. now destruct s.
  - simpl in Hfs. destruct (compute (audio_path e1) mode) as [err1|f] eqn:Hf;
      [discriminate|].
    simpl in Hfs.
    destruct (rmapM (λ e, compute (audio_path e) mode) es1) as [err1|fs'] eqn:Hfs';
      [discriminate|].
    simpl in Hfs. injection Hfs as <-.
    cbn [app process_files]. unfold bind, lift, write_file. rewrite Hf.
    now rewrite (IH fs' (acc ++ [f]) _ eq_refl).
Qed.

Lemma compute_feature_kind path mode f :
  compute path mode = inr f →
  (mode = "logMel" → ∃ t, f = LogMel t)
  ∧ (mode ≠ "logMel" → ∃ spec, f = ComplexSpec spec).
Proof.
  unfold compute_feature. intros Hf.
  destruct (read_multichannel_audio _ _ _ _ _) as [?|w]; [discriminate|].
  cbn [rbind] in Hf.
  destruct (multichannel_stft cfg w) as [?|spec]; [discriminate|].
  cbn [rbind] in Hf. split.
  - intros ->. rewrite String.eqb_refl in Hf.
    destruct (multichannel_complex_to_log_mel _ _) as [?|t]; [discriminate|].
    cbn [rbind] in Hf. injection Hf as <-. eauto.
  - intros Hne. apply String.eqb_neq in Hne. rewrite Hne in Hf.
    injection Hf as <-. eauto.
Qed.
End CacheWriter.

Lemma rmapM_lookup {A B} (f : A → result B) (l : list A) (ys : list B) i x :
  rmapM f l = inr ys → l !! i = Some x →
  ∃ y, ys !! i = Some y ∧ f x = inr y.
Proof.
  revert ys i. induction l as [|a l IH]; intros ys i Hys Hx; [discriminate|].
  simpl in Hys. destruct (f a) as [?|b] eqn:Hb; [discriminate|]. simpl in Hys.
  destruct (rmapM f l) as [?|bs] eqn:Hbs; [discriminate|]. simpl in Hys.
  injection Hys as <-. destruct i as [|i]; simpl in *.
  - injection Hx as <-. eauto.
  - now apply IH.
Qed.

Lemma rmapM_length {A B} (f : A → result B) (l : list A) (ys : list B) :
  rmapM f l = inr ys → length ys = length l.
Proof.
  revert ys. induction l as [|a l IH]; intros ys Hys; simpl in Hys.
  - now injection Hys as <-.
  - destruct (f a) as [?|b]; [discriminate|]. simpl in Hys.
    destruct (rmapM f l) as [?|bs]; [discriminate|]. simpl in Hys.
    injection Hys as <-. simpl. now rewrite (IH bs eq_refl).
Qed.

Lemma apply_writes_lookup_ne ws (m : gmap string file) p :
  Forall (λ w, w.1 ≠ p) ws → apply_writes ws m !! p = m !! p.
Proof.
  intros HF. revert m. induction HF as [|w ws Hw _ IH]; intros m; [reflexivity|].
  change (apply_writes (w :: ws) m) with (apply_writes ws (<[w.1 := w.2]> m)).
  rewrite IH. now apply lookup_insert_ne.
Qed.

Lemma prefix_slash_append a b :
  String.prefix "/" b = false → String.prefix "/" a = false →
  String.prefix "/" (a +:+ b) = false.
Proof.
  intros Hb Ha. destruct a as [|c a]; [exact Hb|].
  change (String c a +:+ b) with (String c (a +:+ b)).
  revert Ha. cbn [String.prefix].
  destruct (Ascii.ascii_dec _ c); [|reflexivity].
  now destruct a.
Qed.

Lemma cache_path_literal output_dir mode e :
  output_dir ≠ EmptyString → ends_with_slash output_dir = false →
  String.prefix "/" (audio_name e) = false →
  cache_path output_dir mode e
  = output_dir +:+ "/" +:+ audio_name e +:+ "_" +:+ mode +:+ "_features_and_labels.pkl".
Proof.
  intros Hne Hend Hname. unfold cache_path, os_path_join.
  rewrite prefix_slash_append; [|reflexivity|exact Hname].
  apply String.eqb_neq in Hne. rewrite Hne, Hend. reflexivity.
Qed.

Lemma features_record_keys f st en :
  ∃ d, features_record f st en = Pickle d
       ∧ dom d = {["features"; "start_times"; "end_times"]}
       ∧ d !! "features" = Some (VFeature f)
       ∧ d !! "start_times" = Some (VTimes st)
       ∧ d !! "end_times" = Some (VTimes en).
Proof.
  eexists. split; [reflexivity|]. split; [|split; [|split]].
  - rewrite !dom_insert_L, dom_empty_L. set_solver.
  - apply lookup_insert_eq.
  - rewrite lookup_insert_ne by discriminate. apply lookup_insert_eq.
  - rewrite !lookup_insert_ne by discriminate. apply lookup_insert_eq.
Qed.


Lemma compute_feature_unreadable cfg MEL resample soundfile_read path mode :
  soundfile_read path = None →
  compute_feature cfg MEL resample soundfile_read path mode = inl RuntimeError.
Proof.
  intros Hnone. unfold compute_feature, read_multichannel_audio.
  now rewrite Hnone.
Qed.

(** C9 (amended). When the processing of a file raises, [preprocess_data]
    raises that exception at that file: the records of the files before
    it are written, the failing file and the files after it get none, and
    no mean/std record is written, so the failed file contributes to no
    persisted statistics and the statistics of the other files are not
    produced. *)
Theorem preprocess_data_failed_file
    cfg MEL resample soundfile_read es1 fs1 e err es2
    output_dir output_mean_std_file mode rnd s :
  rmapM (λ e, compute_feature cfg MEL resample soundfile_read (audio_path e) mode) es1
  = inr fs1 →
  compute_feature cfg MEL resample soundfile_read (audio_path e) mode = inl err →
  let s' := Fs (apply_writes (cache_writes output_dir mode es1 fs1) (files s))
               ({[output_dir]} ∪ dirs s) in
  preprocess_data cfg MEL resample soundfile_read (es1 ++ e :: es2)
    output_dir output_mean_std_file mode rnd s
  = (s', inl err)
  ∧ length (cache_writes output_dir mode es1 fs1) = length es1
  ∧ (Forall (λ e1, cache_path output_dir mode e1 ≠ output_mean_std_file) es1 →
     files s' !! output_mean_std_file = files s !! output_mean_std_file).
Proof.
  intros Hfs He s'. split; [|split].
  - unfold preprocess_data, bind, makedirs.
    rewrite (process_files_fail _ _ _ _ es1 fs1 e err es2 _ _ _ _ Hfs He).
    reflexivity.
  - unfold cache_writes. rewrite length_zip_with, (rmapM_length _ _ _ Hfs). lia.
  - intros Hne. unfold s'. clear s'. cbn [files]. apply apply_writes_lookup_ne.
    unfold cache_writes. clear Hfs. revert fs1.
    induction Hne as [|e1 es1 He1 _ IH]; intros [|f1 fs1]; simpl;
      try constructor; [exact He1|apply IH].
Qed.

(** C10. Called with an empty list, [preprocess_data] raises: the
    concatenation of no array is refused (and so would be the choice of
    an element, had it been reached); the output directory is created,
    and no file is written. *)
Theorem preprocess_data_empty
    cfg MEL resample soundfile_read output_dir output_mean_std_file mode rnd s :
  concatenate_features [] = inl ValueError
  ∧ random_choice rnd ([] : list labeled_audio) = inl IndexError
  ∧ preprocess_data cfg MEL resample soundfile_read []
      output_dir output_mean_std_file mode rnd s
    = (Fs (files s) ({[output_dir]} ∪ dirs s), inl ValueError).
Proof. repeat split. Qed.

Lemma rows_normalize_channels cfg x :
  length (rows (normalize_channels cfg x)) = length (rows (as_2d x)).
Proof.
  unfold normalize_channels. fold (as_2d x).
  destruct (ncols _ <? _); [|destruct (_ =? 1); [|destruct (_ <? _)]];
    unfold repeat_axis1, reshape_col, slice_cols, mean_axis1; simpl;
    now rewrite ?length_map.
Qed.

(** A file already at the working rate, with at least one sample, goes
    through the whole chain. *)
Lemma compute_feature_ok cfg MEL resample soundfile_read path x :
  valid_config cfg → 1 ≤ audio_channels cfg →
  length (rows MEL) = NFFT cfg / 2 + 1 →
  soundfile_read path = Some (x, working_sample_rate cfg) →
  1 ≤ length (rows (as_2d x)) →
  ∃ spec lm,
    compute_feature cfg MEL resample soundfile_read path "logMel" = inr (LogMel lm)
    ∧ (∀ mode, mode ≠ "logMel" →
         compute_feature cfg MEL resample soundfile_read path mode
         = inr (ComplexSpec spec))
    ∧ length spec = audio_channels cfg ∧ length lm = audio_channels cfg.
Proof.
  intros Hcfg Hch HM Hread Hn.
  destruct (multichannel_stft_ok cfg (normalize_channels cfg x) Hcfg)
    as (spec & Hs & Hlen & HF).
  { now rewrite rows_normalize_channels. }
  assert (Hbins : freq_bins (NFFT cfg / 2 + 1) spec).
  { eapply Forall_impl; [exact HF|]. intros ch [_ H]. exact H. }
  pose proof (log_mel_ok MEL _ spec HM Hbins) as Hlm.
  rewrite ncols_normalize_channels in Hlen.
  exists spec. eexists. unfold compute_feature, read_multichannel_audio.
  rewrite Hread, Nat.eqb_refl. cbn [negb rbind]. rewrite Hs. cbn [rbind].
  split; [rewrite String.eqb_refl, Hlm; reflexivity|].
  split; [|split; [exact Hlen|now rewrite length_map]].
  intros mode Hne. apply String.eqb_neq in Hne. now rewrite Hne.
Qed.

Lemma good_file_feature :
  ∃ spec lm,
    compute_feature small_cfg small_mel hold_resample one_file_disk "a.wav" "logMel"
    = inr (LogMel lm)
    ∧ (∀ mode, mode ≠ "logMel" →
         compute_feature small_cfg small_mel hold_resample one_file_disk "a.wav" mode
         = inr (ComplexSpec spec))
    ∧ length spec = 2 ∧ length lm = 2.
Proof.
  apply (compute_feature_ok small_cfg small_mel hold_resample one_file_disk
           "a.wav" (Sf1 [1%R])).
  - unfold valid_config; simpl; lia.
  - simpl; lia.
  - reflexivity.
  - reflexivity.
  - simpl; lia.
Qed.

(** The run of [preprocess_data] on the single file [good_file]. *)
Lemma preprocess_data_good_file mode :
  ∃ f mean std,
    compute_feature small_cfg small_mel hold_resample one_file_disk "a.wav" mode = inr f
    ∧ preprocess_data small_cfg small_mel hold_resample one_file_disk [good_file]
        "out" "out/mean_std.pkl" mode 0 (Fs ∅ ∅)
      = (Fs (<["out/data_sample.png" := Png]>
             (<["out/mean_std.pkl" := mean_std_record mean std]>
              (<[cache_path "out" mode good_file := features_record f [] []]> ∅)))
            ({["out"]} ∪ ∅),
         inr tt).
Proof.
  destruct good_file_feature as (spec & lm & Hlm & Hspec & Hls & Hll).
  assert (Hf : ∃ f, compute_feature small_cfg small_mel hold_resample one_file_disk
                      "a.wav" mode = inr f
                    ∧ ∃ ms, rbind (concatenate_features [f]) feature_statistics = inr ms).
  { destruct (String.eqb_spec mode "logMel") as [->|Hne].
    - exists (LogMel lm). split; [exact Hlm|]. eexists. reflexivity.
    - exists (ComplexSpec spec). split; [now apply Hspec|]. eexists. reflexivity. }
  destruct Hf as (f & Hf & [mean std] & Hms).
  exists f, mean, std. split; [exact Hf|].
  unfold preprocess_data, bind, makedirs.
  rewrite (process_files_ok _ _ _ _ [good_file] [f]);
    [|simpl; change (audio_path good_file) with "a.wav"; now rewrite Hf].
  cbn [app lift files dirs].
  destruct (concatenate_features [f]) as [?|cf]; [discriminate|].
  cbn [rbind] in Hms. rewrite Hms. unfold write_file. cbn [files dirs fst snd].
  unfold random_choice, analyze_data_sample, bind, lift.
  change (nth (0 mod length [good_file]) [good_file] good_file) with good_file.
  change (audio_path good_file) with "a.wav".
  change (one_file_disk "a.wav") with (Some (Sf1 [1%R], 2)).
  rewrite Hlm. cbn [as_real]. destruct lm as [|ch lm]; [discriminate|].
  unfold write_file. cbn [files dirs]. reflexivity.
Qed.



(** With a file that cannot be read in the batch, the statistics of the
    other file are not persisted: nothing is written at the path of the
    mean/std record, where a run on the other file alone writes one. *)
Lemma preprocess_data_failed_file_counterexample :
  ∃ s_fail s_ok,
    preprocess_data small_cfg small_mel hold_resample one_file_disk
      [good_file; bad_file] "out" "out/mean_std.pkl" "logMel" 0 (Fs ∅ ∅)
    = (s_fail, inl RuntimeError)
    ∧ files s_fail !! "out/mean_std.pkl" = None
    ∧ preprocess_data small_cfg small_mel hold_resample one_file_disk
        [good_file] "out" "out/mean_std.pkl" "logMel" 0 (Fs ∅ ∅)
      = (s_ok, inr tt)
    ∧ is_Some (files s_ok !! "out/mean_std.pkl").
Proof.
  destruct (preprocess_data_good_file "logMel") as (f & mean & std & Hf & Hrun).
  eexists. eexists. split; [|split; [|split; [exact Hrun|]]].
  - unfold preprocess_data, bind, makedirs.
    rewrite (process_files_fail _ _ _ _ [good_file] [f] bad_file RuntimeError []).
    + reflexivity.
    + cbn [rmapM]. change (audio_path good_file) with "a.wav". now rewrite Hf.
    + now apply compute_feature_unreadable.
  - cbn [files]. rewrite apply_writes_lookup_ne; [apply lookup_empty|].
    repeat constructor. discriminate.
  - cbn [files]. rewrite lookup_insert_ne by discriminate.
    rewrite lookup_insert_eq. eauto.
Qed.

Lemma preprocess_data_failed_file_witness :
  ∃ fs1,
    preprocess_data small_cfg small_mel hold_resample one_file_disk
      ([good_file] ++ bad_file :: []) "out" "out/mean_std.pkl" "logMel" 0 (Fs ∅ ∅)
    = (Fs (apply_writes (cache_writes "out" "logMel" [good_file] fs1) ∅)
          ({["out"]} ∪ ∅),
       inl RuntimeError)
    ∧ length (cache_writes "out" "logMel" [good_file] fs1) = 1.
Proof.
  destruct good_file_feature as (spec & lm & Hlm & _).
  exists [LogMel lm].
  destruct (preprocess_data_failed_file small_cfg small_mel hold_resample
              one_file_disk [good_file] [LogMel lm] bad_file RuntimeError []
              "out" "out/mean_std.pkl" "logMel" 0 (Fs ∅ ∅))
    as (Hrun & Hlen & _).
  - cbn [rmapM]. change (audio_path good_file) with "a.wav". rewrite Hlm.
    reflexivity.
  - reflexivity.
  - split; [exact Hrun|exact Hlen].
Defined.

(** * Further properties of the pipeline *)

(** ** Audio loader *)

Lemma map_nth_seq_id (l : list R) :
  map (λ j, nth j l 0%R) (seq 0 (length l)) = l.
Proof.
  apply (nth_ext _ _ 0%R 0%R).
  - now rewrite length_map, length_seq.
  - intros n Hn. rewrite length_map, length_seq in Hn.
    now rewrite nth_map_seq.
Qed.

Lemma nth_map_default {B C} (f : B → C) (l : list B) (i : nat) (d : B) (d' : C) :
  i < length l → nth i (map f l) d' = f (nth i l d).
Proof.
  intros Hi. rewrite (nth_indep _ d' (f d)) by now rewrite length_map.
  apply map_nth.
Qed.

Lemma column_array_T (chans : list (list R)) L b i :
  Forall (λ c, length c = L) chans →
  array_T chans = inr (Sf2 b) →
  i < length chans →
  column b i = nth i chans [].
Proof.
  intros Hall Hb Hi. destruct chans as [|c0 cs]; [discriminate|].
  unfold array_T in Hb. destruct (forallb _ _); [|discriminate].
  injection Hb as <-. unfold column. cbn [rows]. rewrite map_map.
  assert (Hc0 : length c0 = L) by (inversion Hall; assumption).
  assert (Hci : length (nth i (c0 :: cs) []) = L).
  { rewrite Forall_forall in Hall. apply Hall, list_elem_of_In, nth_In, Hi. }
  rewrite Hc0, <- Hci.
  transitivity (map (λ j, nth j (nth i (c0 :: cs) []) 0%R)
                    (seq 0 (length (nth i (c0 :: cs) [])))).
  - apply map_ext. intros j.
    exact (nth_map_default (λ c, nth j c 0%R) (c0 :: cs) i [] 0%R Hi).
  - apply map_nth_seq_id.
Qed.

(** When the rate of the file differs from the target rate, each channel
    of the normalized audio is resampled on its own and the results are
    put side by side in the same order: channel [i] of the output is the
    resampled channel [i]. *)
Theorem read_multichannel_audio_resamples_each_channel
    cfg resample soundfile_read audio_path fs x sample_rate :
  1 ≤ audio_channels cfg →
  length_determined resample →
  soundfile_read audio_path = Some (x, sample_rate) →
  sample_rate ≠ fs →
  ∃ b, read_multichannel_audio cfg resample soundfile_read audio_path (Some fs)
         = inr (Sf2 b)
       ∧ ncols b = audio_channels cfg
       ∧ length (rows b)
         = length (resample sample_rate fs (column (normalize_channels cfg x) 0))
       ∧ ∀ i, i < audio_channels cfg →
           column b i = resample sample_rate fs (column (normalize_channels cfg x) i).
Proof.
  intros Hpos Hres Hread Hne.
  unfold read_multichannel_audio. rewrite Hread.
  apply Nat.eqb_neq in Hne. rewrite Hne. cbn [negb].
  pose proof (ncols_normalize_channels cfg x) as Hn.
  set (a := normalize_channels cfg x) in *.
  set (chans := map (λ i, resample sample_rate fs (column a i)) (seq 0 (ncols a))).
  assert (Hall : Forall (λ c, length c = length (resample sample_rate fs (column a 0)))
                        chans).
  { apply Forall_forall. intros c Hc.
    apply list_elem_of_In, in_map_iff in Hc as (i & <- & _).
    apply Hres. unfold column. now rewrite !length_map. }
  assert (Hlen : length chans = audio_channels cfg).
  { unfold chans. now rewrite length_map, length_seq. }
  assert (Hnil : chans ≠ []).
  { intros E. rewrite E in Hlen. simpl in Hlen. lia. }
  destruct (array_T_ok chans _ Hnil Hall) as (b & Hb & Hcols & _ & Hrows).
  exists b. split; [exact Hb|]. split; [congruence|]. split; [exact Hrows|].
  intros i Hi. rewrite (column_array_T chans _ b i Hall Hb) by lia.
  unfold chans.
  rewrite (nth_map_default _ _ i 0) by (rewrite length_seq; lia).
  rewrite seq_nth by lia. reflexivity.
Qed.

Lemma read_multichannel_audio_resamples_each_channel_witness :
  ∃ b, read_multichannel_audio small_cfg hold_resample stereo_disk "s.wav" (Some 8)
         = inr (Sf2 b)
       ∧ ncols b = 2
       ∧ ∀ i, i < 2 →
           column b i
           = hold_resample 4 8 (column (normalize_channels small_cfg stereo_source) i).
Proof.
  destruct (read_multichannel_audio_resamples_each_channel small_cfg hold_resample
              stereo_disk "s.wav" 8 stereo_source 4) as (b & Hb & Hc & _ & Hcol).
  - simpl. lia.
  - exact hold_resample_length_determined.
  - reflexivity.
  - lia.
  - exists b. auto.
Defined.

Lemma nth_replicate_lt (k i : nat) (v : R) :
  i < k → nth i (replicate k v) 0%R = v.
Proof.
  revert i. induction k as [|k IH]; intros i Hi; [lia|].
  destruct i as [|i]; simpl; [reflexivity|]. apply IH. lia.
Qed.

Lemma column_repeat_axis1 col k i :
  i < k → column (repeat_axis1 col k) i = col.
Proof.
  intros Hi. unfold column, repeat_axis1. cbn [rows]. rewrite map_map.
  rewrite <- (map_id col) at 2. apply map_ext. intros v.
  now apply nth_replicate_lt.
Qed.

Lemma mean_axis1_reshape_col y : mean_axis1 (reshape_col y) = y.
Proof.
  unfold mean_axis1, reshape_col. cbn [rows ncols]. rewrite map_map.
  rewrite <- (map_id y) at 2. apply map_ext. intros v. simpl. field.
Qed.

(** A source with fewer channels than configured comes out with all its
    channels equal to the mean of the source channels; for a mono source
    every output channel is the source signal itself. *)
Theorem normalize_channels_replicates_mean cfg x i :
  ncols (as_2d x) < audio_channels cfg →
  i < audio_channels cfg →
  column (normalize_channels cfg x) i = mean_axis1 (as_2d x)
  ∧ (∀ y, x = Sf1 y → column (normalize_channels cfg x) i = y).
Proof.
  intros Hlt Hi.
  assert (Hcol : column (normalize_channels cfg x) i = mean_axis1 (as_2d x)).
  { unfold normalize_channels. fold (as_2d x).
    apply Nat.ltb_lt in Hlt. rewrite Hlt. now apply column_repeat_axis1. }
  split; [exact Hcol|].
  intros y ->. rewrite Hcol. apply mean_axis1_reshape_col.
Qed.

Lemma normalize_channels_replicates_mean_witness :
  column (normalize_channels small_cfg (Sf1 [1%R; 5%R])) 1
  = mean_axis1 (as_2d (Sf1 [1%R; 5%R]))
  ∧ column (normalize_channels small_cfg (Sf1 [1%R; 5%R])) 1 = [1%R; 5%R].
Proof.
  destruct (normalize_channels_replicates_mean small_cfg (Sf1 [1%R; 5%R]) 1)
    as [Hmean Hmono].
  - simpl. lia.
  - simpl. lia.
  - split; [exact Hmean|]. now apply Hmono.
Defined.

Lemma reshape_col_mean_singletons (a : ndarray2) :
  ncols a = 1 → wf2 a → reshape_col (mean_axis1 a) = a.
Proof.
  destruct a as [n rs]. unfold wf2, reshape_col, mean_axis1. cbn [ncols rows].
  intros -> Hwf. f_equal. rewrite map_map.
  rewrite <- (map_id rs) at 2. apply map_ext_in. intros r Hr.
  rewrite Forall_forall in Hwf. specialize (Hwf r (proj2 (list_elem_of_In _ _) Hr)).
  destruct r as [|v [|w r]]; simpl in Hwf; try lia.
  simpl. f_equal. field.
Qed.

(** A source that already has the configured number of channels goes
    through the channel normalization unchanged. *)
Theorem normalize_channels_conforming cfg x :
  wf_sf x →
  ncols (as_2d x) = audio_channels cfg →
  normalize_channels cfg x = as_2d x.
Proof.
  intros Hwf Hn. unfold normalize_channels. fold (as_2d x).
  rewrite Hn, Nat.ltb_irrefl.
  destruct (audio_channels cfg =? 1) eqn:E1; [|reflexivity].
  apply Nat.eqb_eq in E1. apply reshape_col_mean_singletons; [lia|].
  destruct x; [|exact Hwf].
  unfold wf2, reshape_col; simpl. apply Forall_forall.
  intros r Hr. apply list_elem_of_In, in_map_iff in Hr as (v & <- & _). reflexivity.
Qed.

Lemma normalize_channels_conforming_witness :
  normalize_channels small_cfg stereo_source = as_2d stereo_source.
Proof.
  apply (normalize_channels_conforming small_cfg stereo_source).
  - unfold wf_sf, wf2, stereo_source. simpl. repeat constructor.
  - reflexivity.
Defined.

(** The channel normalization is idempotent: normalizing an array that
    came out of it gives the same array, and the number of samples is the
    one of the source. *)
Theorem normalize_channels_idempotent cfg x :
  normalize_channels cfg (Sf2 (normalize_channels cfg x)) = normalize_channels cfg x
  ∧ length (rows (normalize_channels cfg x)) = length (rows (as_2d x)).
Proof.
  split; [|apply rows_normalize_channels].
  unfold normalize_channels at 1. cbn match.
  rewrite ncols_normalize_channels, Nat.ltb_irrefl.
  destruct (audio_channels cfg =? 1) eqn:E1; [|reflexivity].
  unfold normalize_channels. fold (as_2d x). rewrite E1.
  apply Nat.eqb_eq in E1. rewrite E1.
  assert (Hrep : ∀ col, repeat_axis1 col 1 = reshape_col col) by reflexivity.
  destruct (ncols (as_2d x) <? 1); rewrite ?Hrep;
    now rewrite mean_axis1_reshape_col.
Qed.

(** ** Multichannel STFT engine *)

(** The spectrogram of a signal with at least one sample has one entry
    per channel, [stft_frames] frames and [NFFT // 2 + 1] frequency bins. *)
Theorem multichannel_stft_shape cfg a :
  valid_config cfg → 1 ≤ length (rows a) →
  ∃ spec, multichannel_stft cfg (Sf2 a) = inr spec
          ∧ has_shape (ncols a) (stft_frames cfg (length (rows a)))
              (NFFT cfg / 2 + 1) spec.
Proof.
  intros Hcfg Hn.
  destruct (multichannel_stft_ok cfg a Hcfg Hn) as (spec & Hs & Hlen & HF).
  exists spec. split; [exact Hs|]. split; [exact Hlen|exact HF].
Qed.

Lemma multichannel_stft_shape_witness :
  ∃ spec, multichannel_stft small_cfg two_samples = inr spec
          ∧ has_shape 2 3 2 spec.
Proof.
  apply (multichannel_stft_shape small_cfg (Nd2 2 [[1%R; 1%R]; [0%R; 0%R]])).
  - unfold valid_config; simpl; lia.
  - simpl; lia.
Defined.

Lemma stft_fails y n_fft win_length hop_length window :
  length window = win_length →
  n_fft = 0 ∨ n_fft < win_length ∨ hop_length = 0 ∨ y = [] →
  ∃ e, stft y n_fft win_length hop_length window = inl e.
Proof.
  intros Hw Hbad. unfold stft.
  destruct (n_fft =? 0) eqn:E0; [eauto|]. apply Nat.eqb_neq in E0.
  replace (length window =? win_length) with true by (symmetry; now apply Nat.eqb_eq).
  cbn [negb orb]. unfold pad_center. rewrite Hw.
  destruct (n_fft <? win_length) eqn:E1; [eauto|]. apply Nat.ltb_ge in E1.
  cbn [rbind]. destruct y as [|y0 y'].
  - unfold np_pad_reflect. destruct (n_fft / 2 =? 0); [|eauto].
    cbn [rbind length]. replace (0 <? n_fft) with true
      by (symmetry; apply Nat.ltb_lt; lia).
    eauto.
  - destruct Hbad as [H|[H|[H|H]]]; [lia|lia| |discriminate].
    destruct (np_pad_reflect_ok (y0 :: y') (n_fft / 2)) as (ypad & -> & _);
      [discriminate|].
    cbn [rbind]. rewrite H. cbn [Nat.ltb Nat.leb]. rewrite orb_true_r. eauto.
Qed.

(** On an array with at least one channel the STFT succeeds exactly when
    the configuration is valid ([NFFT > 0], [frame_size <= NFFT],
    [hop_size > 0]) and the signal has at least one sample; a 1D array
    is refused. *)
Theorem multichannel_stft_succeeds_iff cfg a :
  1 ≤ ncols a →
  ((∃ spec, multichannel_stft cfg (Sf2 a) = inr spec)
   ↔ valid_config cfg ∧ 1 ≤ length (rows a))
  ∧ (∀ y, multichannel_stft cfg (Sf1 y) = inl ValueError).
Proof.
  intros Hc. split; [|reflexivity]. split.
  - intros (spec & Hs).
    destruct (Nat.eq_dec (NFFT cfg) 0) as [E0|E0];
      [|destruct (lt_dec (NFFT cfg) (frame_size cfg)) as [E1|E1];
        [|destruct (Nat.eq_dec (hop_size cfg) 0) as [E2|E2];
          [|destruct (rows a) as [|r rs] eqn:E3;
            [|split; [unfold valid_config; lia|simpl; lia]]]]].
    all: exfalso;
      destruct (stft_fails (column a 0) (NFFT cfg) (frame_size cfg) (hop_size cfg)
                  (np_hanning (frame_size cfg)) (length_np_hanning _)) as (e & He);
      [unfold column; rewrite ?E3; auto
      |unfold multichannel_stft in Hs; destruct (ncols a) as [|n]; [lia|];
       simpl in Hs; rewrite He in Hs; discriminate].
  - intros [Hcfg Hn].
    destruct (multichannel_stft_ok cfg a Hcfg Hn) as (spec & Hs & _). eauto.
Qed.

Lemma multichannel_stft_succeeds_iff_witness :
  ((∃ spec, multichannel_stft small_cfg two_samples = inr spec)
   ↔ valid_config small_cfg ∧ 1 ≤ 2)
  ∧ ¬ (∃ spec, multichannel_stft small_cfg (Sf2 (Nd2 2 [])) = inr spec).
Proof.
  split.
  - apply (multichannel_stft_succeeds_iff small_cfg (Nd2 2 [[1%R; 1%R]; [0%R; 0%R]])).
    simpl. lia.
  - intros Hs.
    apply (multichannel_stft_succeeds_iff small_cfg (Nd2 2 [])) in Hs;
      simpl in *; lia.
Defined.

(** ** Log-mel projector *)

Lemma rmapM_inr_Forall {A B} (f : A → result B) (l : list A) ys :
  rmapM f l = inr ys → Forall (λ x, ∃ y, f x = inr y) l.
Proof.
  revert ys. induction l as [|x l IH]; intros ys Hys; [constructor|].
  simpl in Hys. destruct (f x) as [?|y] eqn:Hx; [discriminate|].
  destruct (rmapM f l) as [?|ys']; [discriminate|].
  constructor; eauto.
Qed.

Lemma rmapM_error_kind {A B} (f : A → result B) (E : exn) (l : list A) e :
  (∀ x e', f x = inl e' → e' = E) → rmapM f l = inl e → e = E.
Proof.
  intros Hf. induction l as [|x l IH]; intros He; [discriminate|].
  simpl in He. destruct (f x) as [e'|y] eqn:Hx.
  - simpl in He. injection He as <-. eauto.
  - simpl in He. destruct (rmapM f l) as [e'|ys]; [|discriminate].
    simpl in He. injection He as <-. now apply IH.
Qed.

Lemma dot_row_error row B e : dot_row row B = inl e → e = ValueError.
Proof.
  unfold dot_row. destruct (_ =? _); [discriminate|]. now intros [= <-].
Qed.

Lemma log_mel_has_shape MEL C T F spec :
  length (rows MEL) = F → has_shape C T F spec →
  ∃ lm, multichannel_complex_to_log_mel MEL spec = inr lm
        ∧ has_shape C T (ncols MEL) lm.
Proof.
  intros HM [Hlen HF].
  assert (Hbins : freq_bins F spec).
  { eapply Forall_impl; [exact HF|]. intros ch [_ H]. exact H. }
  eexists. split; [apply (log_mel_ok MEL F spec HM Hbins)|].
  split; [now rewrite length_map|].
  rewrite Forall_map. eapply Forall_impl; [exact HF|].
  intros ch [HT _]. cbn beta. split; [now rewrite length_map|].
  rewrite Forall_map. apply Forall_forall. intros row _. cbn beta.
  unfold mel_power. now rewrite !length_map, length_seq.
Qed.

(** The log-mel feature of a spectrogram of shape [C, T, F], [F] being
    the number of rows of the filter bank, has shape [C, T, mel_bins]:
    channels and frames are kept, the frequency axis becomes the mel
    axis. *)
Theorem log_mel_shape MEL C T F spec :
  length (rows MEL) = F → has_shape C T F spec →
  ∃ lm, multichannel_complex_to_log_mel MEL spec = inr lm
        ∧ has_shape C T (ncols MEL) lm.
Proof.
  intros HM Hsh.
  destruct (log_mel_has_shape MEL C T F spec HM Hsh) as (lm & Hlm & Hlmsh).
  exists lm. split; [exact Hlm|exact Hlmsh].
Qed.

Lemma log_mel_shape_witness :
  ∃ lm, multichannel_complex_to_log_mel small_mel
          [[[(1%R, 0%R); (0%R, 1%R)]]; [[(0%R, 0%R); (2%R, 0%R)]]] = inr lm
        ∧ has_shape 2 1 1 lm.
Proof.
  apply (log_mel_shape small_mel 2 1 2).
  - reflexivity.
  - split; [reflexivity|]. repeat constructor.
Defined.

Lemma log_mel_inr_bins MEL spec lm :
  multichannel_complex_to_log_mel MEL spec = inr lm →
  freq_bins (length (rows MEL)) spec.
Proof.
  intros Hlm. unfold multichannel_complex_to_log_mel in Hlm. cbv zeta in Hlm.
  destruct (rmapM _ _) as [?|mel] eqn:Hmel; [discriminate|].
  apply rmapM_inr_Forall in Hmel. rewrite Forall_map in Hmel.
  eapply Forall_impl; [exact Hmel|]. intros ch (rs & Hrs). cbn beta in Hrs.
  apply rmapM_inr_Forall in Hrs. rewrite Forall_map in Hrs.
  eapply Forall_impl; [exact Hrs|]. intros row (r & Hr). cbn beta in Hr.
  unfold dot_row in Hr. rewrite length_map in Hr.
  destruct (length row =? length (rows MEL)) eqn:E; [|discriminate].
  now apply Nat.eqb_eq in E.
Qed.



(** ** Silence through the whole chain *)

Lemma nth_zeros (l : list R) i : Forall (λ v, v = 0%R) l → nth i l 0%R = 0%R.
Proof.
  intros Hl. revert i. induction Hl as [|v l -> _ IH]; intros [|i]; simpl; auto.
Qed.

Lemma Rsum_map_zero {B} (g : B → R) (l : list B) :
  (∀ x, g x = 0%R) → Rsum (map g l) = 0%R.
Proof.
  intros Hg. apply Rsum_zeros. rewrite Forall_map. apply Forall_forall.
  intros x _. apply Hg.
Qed.

Lemma dft_bin_zero n_fft frame f :
  Forall (λ v, v = 0%R) frame → dft_bin n_fft frame f = (0%R, 0%R).
Proof.
  intros Hz. unfold dft_bin.
  rewrite !Rsum_map_zero; [now rewrite Ropp_0| |];
    intros k; rewrite (nth_zeros frame k Hz); apply Rmult_0_l.
Qed.

Lemma np_pad_reflect_zero y p :
  y ≠ [] → Forall (λ v, v = 0%R) y →
  ∃ ypad, np_pad_reflect y p = inr ypad ∧ length ypad = length y + 2 * p
          ∧ Forall (λ v, v = 0%R) ypad.
Proof.
  intros Hy Hz. unfold np_pad_reflect. destruct y as [|y0 y'] eqn:E; [congruence|].
  rewrite <- E in *. eexists. split; [reflexivity|].
  split; [now rewrite length_map, length_seq|].
  rewrite Forall_map. apply Forall_forall. intros i _. now apply nth_zeros.
Qed.

Lemma stft_zero y n_fft win_length hop_length window :
  y ≠ [] → Forall (λ v, v = 0%R) y →
  0 < n_fft → length window = win_length → win_length ≤ n_fft → 0 < hop_length →
  ∃ D, stft y n_fft win_length hop_length window = inr D
       ∧ length D = frame_count (length y + 2 * (n_fft / 2)) n_fft hop_length
       ∧ Forall (λ r, length r = n_fft / 2 + 1 ∧ Forall (λ z, z = (0%R, 0%R)) r) D.
Proof.
  intros Hy Hz Hn Hw Hwn Hh. unfold stft.
  replace (n_fft =? 0) with false by (symmetry; apply Nat.eqb_neq; lia).
  replace (length window =? win_length) with true by (symmetry; now apply Nat.eqb_eq).
  cbn [negb orb].
  destruct (pad_center_ok window n_fft) as (w' & -> & Hw'); [lia|].
  destruct (np_pad_reflect_zero y (n_fft / 2) Hy Hz) as (ypad & -> & Hyp & Hzp).
  cbn [rbind]. rewrite Hyp.
  assert (Hlen : 1 ≤ length y) by (destruct y; simpl; [congruence|lia]).
  pose proof (Nat.div_mod_eq n_fft 2) as Hdm.
  pose proof (Nat.mod_upper_bound n_fft 2) as Hmod.
  replace (length y + 2 * (n_fft / 2) <? n_fft) with false
    by (symmetry; apply Nat.ltb_ge; lia).
  replace (hop_length <? 1) with false by (symmetry; apply Nat.ltb_ge; lia).
  cbn [orb]. eexists. split; [reflexivity|]. split.
  - now rewrite length_map, length_seq.
  - rewrite Forall_map. apply Forall_forall. intros t _. cbn beta zeta.
    split; [now rewrite length_map, length_seq|].
    rewrite Forall_map. apply Forall_forall. intros f _. cbn beta.
    apply dft_bin_zero. rewrite Forall_map. apply Forall_forall.
    intros k _. cbn beta. rewrite (nth_zeros ypad _ Hzp). apply Rmult_0_r.
Qed.

Lemma Rsum_zero_row r n : Forall (λ v, v = 0%R) r → (Rsum r / n)%R = 0%R.
Proof. intros Hr. rewrite (Rsum_zeros r Hr). unfold Rdiv. apply Rmult_0_l. Qed.

Lemma normalize_channels_zero cfg x :
  all_zero2 (as_2d x) → all_zero2 (normalize_channels cfg x).
Proof.
  intros Hz. unfold normalize_channels. fold (as_2d x).
  assert (Hmean : Forall (λ v, v = 0%R) (mean_axis1 (as_2d x))).
  { unfold mean_axis1. rewrite Forall_map. eapply Forall_impl; [exact Hz|].
    intros r Hr. now apply Rsum_zero_row. }
  destruct (ncols _ <? _); [|destruct (_ =? 1); [|destruct (_ <? _)]].
  - unfold all_zero2, repeat_axis1. cbn [rows]. rewrite Forall_map.
    eapply Forall_impl; [exact Hmean|]. intros v ->. cbn beta.
    apply Forall_forall. intros w Hw. now apply elem_of_replicate in Hw as [-> _].
  - unfold all_zero2, reshape_col. cbn [rows]. rewrite Forall_map.
    eapply Forall_impl; [exact Hmean|]. intros v ->. repeat constructor.
  - unfold all_zero2, slice_cols. cbn [rows]. rewrite Forall_map.
    eapply Forall_impl; [exact Hz|]. intros r Hr. now apply Forall_take.
  - exact Hz.
Qed.

Lemma column_zero a i : all_zero2 a → Forall (λ v, v = 0%R) (column a i).
Proof.
  intros Hz. unfold column. rewrite Forall_map.
  eapply Forall_impl; [exact Hz|]. intros r Hr. now apply nth_zeros.
Qed.



(** ** Corpus statistics accumulator *)

Lemma map_seq_const {B} (v : B) a n : map (λ _, v) (seq a n) = replicate n v.
Proof.
  revert a. induction n as [|n IH]; intros a; simpl; [reflexivity|].
  now rewrite IH.
Qed.

Lemma colsum_constant g m c (rs : list (list R)) M :
  Forall (λ r, length r = M ∧ Forall (λ v, v = c) r) rs → m < M →
  colsum g m rs = (INR (length rs) * g c)%R.
Proof.
  intros HF Hm.
  induction HF as [|r rs [Hlen Hr] _ IH]; [unfold colsum; simpl; lra|].
  change (colsum g m (r :: rs)) with (g (nth m r 0%R) + colsum g m rs)%R.
  assert (Hnth : nth m r 0%R = c).
  { rewrite Forall_forall in Hr. apply Hr, list_elem_of_In, nth_In. lia. }
  cbn [length]. rewrite IH, S_INR, Hnth. lra.
Qed.





Lemma colsum_perm g m rs rs' : Permutation rs rs' → colsum g m rs = colsum g m rs'.
Proof.
  intros HP. unfold colsum, bin_values.
  apply Rsum_perm. now do 2 apply Permutation_map.
Qed.

Lemma concat_perm {B} (l l' : list (list B)) :
  Permutation l l' → Permutation (concat l) (concat l').
Proof.
  induction 1 as [|x l l' _ IH|x y l|l l' l'' _ IH1 _ IH2]; simpl.
  - constructor.
  - now apply Permutation_app_head.
  - rewrite !app_assoc. apply Permutation_app_tail, Permutation_app_comm.
  - now transitivity (concat l').
Qed.



(** ** Feature cache writer *)

Lemma compute_feature_shape cfg MEL resample soundfile_read e :
  valid_config cfg → length (rows MEL) = NFFT cfg / 2 + 1 →
  readable cfg soundfile_read e →
  ∃ lm T, compute_feature cfg MEL resample soundfile_read (audio_path e) "logMel"
          = inr (LogMel lm)
          ∧ 1 ≤ T ∧ has_shape (audio_channels cfg) T (ncols MEL) lm.
Proof.
  intros Hcfg HM (x & Hread & Hn).
  destruct (multichannel_stft_ok cfg (normalize_channels cfg x) Hcfg)
    as (spec & Hs & Hlen & HF).
  { now rewrite rows_normalize_channels. }
  rewrite ncols_normalize_channels in Hlen.
  destruct (log_mel_has_shape MEL _ _ _ spec HM (conj Hlen HF)) as (lm & Hlm & Hsh).
  exists lm. eexists. split; [|split; [|exact Hsh]].
  - unfold compute_feature, read_multichannel_audio.
    rewrite Hread, Nat.eqb_refl. cbn [negb rbind]. rewrite Hs. cbn [rbind].
    now rewrite String.eqb_refl, Hlm.
  - unfold stft_frames, frame_count. lia.
Qed.

Lemma rmapM_inr_exists {A B} (f : A → result B) (P : A → B → Prop) (l : list A) :
  Forall (λ x, ∃ y, f x = inr y ∧ P x y) l →
  ∃ ys, rmapM f l = inr ys ∧ Forall2 P l ys.
Proof.
  induction 1 as [|x l (y & Hy & HP) _ (ys & Hys & HF)]; simpl.
  - exists []. split; [reflexivity|constructor].
  - exists (y :: ys). rewrite Hy, Hys. split; [reflexivity|now constructor].
Qed.



Lemma apply_writes_last ws (m : gmap string file) i p c :
  ws !! i = Some (p, c) →
  (∀ j w, i < j → ws !! j = Some w → w.1 ≠ p) →
  apply_writes ws m !! p = Some c.
Proof.
  revert i m. induction ws as [|w0 ws IH]; intros i m Hi Hlater; [discriminate|].
  change (apply_writes (w0 :: ws) m) with (apply_writes ws (<[w0.1 := w0.2]> m)).
  destruct i as [|i].
  - injection Hi as ->. cbn [fst snd]. rewrite apply_writes_lookup_ne.
    + apply lookup_insert_eq.
    + apply Forall_lookup. intros j w Hw. apply (Hlater (S j) w); [lia|exact Hw].
  - apply (IH i); [exact Hi|].
    intros j w Hj Hw. apply (Hlater (S j) w); [lia|exact Hw].
Qed.

(** After the loop over the files, the record found at the cache path of
    a file is its own when no later file of the batch has the same path;
    files with one [audio_name] share their path, so of several such
    files it is the record of the last one that is found. *)
Theorem preprocess_last_record_wins
    cfg MEL resample soundfile_read es fs output_dir mode acc s i e f :
  rmapM (λ e, compute_feature cfg MEL resample soundfile_read (audio_path e) mode) es
  = inr fs →
  es !! i = Some e → fs !! i = Some f →
  (∀ j e', i < j → es !! j = Some e' →
     cache_path output_dir mode e' ≠ cache_path output_dir mode e) →
  files (process_files cfg MEL resample soundfile_read es output_dir mode acc s).1
    !! cache_path output_dir mode e
  = Some (features_record f (start_times e) (end_times e))
  ∧ (∀ e', audio_name e' = audio_name e →
       cache_path output_dir mode e' = cache_path output_dir mode e).
Proof.
  intros Hfs He Hf Hlater. split; [|intros e' Hname; unfold cache_path; now rewrite Hname].
  rewrite (process_files_ok _ _ _ _ es fs _ _ _ _ Hfs). cbn [fst files].
  apply (apply_writes_last _ _ i).
  - unfold cache_writes. rewrite lookup_zip_with, He. cbn. now rewrite Hf.
  - intros j w Hj Hw. unfold cache_writes in Hw.
    apply lookup_zip_with_Some in Hw as (e' & f' & -> & He' & _).
    cbn [fst]. now apply (Hlater j).
Qed.

Lemma preprocess_last_record_wins_witness :
  ∃ f,
    files (process_files small_cfg small_mel hold_resample one_file_disk
             [good_file; good_file_again] "out" "logMel" [] (Fs ∅ ∅)).1
      !! cache_path "out" "logMel" good_file
    = Some (features_record f [1%R] [2%R]).
Proof.
  destruct good_file_feature as (spec & lm & Hlm & _).
  exists (LogMel lm).
  destruct (preprocess_last_record_wins small_cfg small_mel hold_resample
              one_file_disk [good_file; good_file_again] [LogMel lm; LogMel lm]
              "out" "logMel" [] (Fs ∅ ∅) 1 good_file_again (LogMel lm))
    as [Hlook _].
  - cbn [rmapM]. change (audio_path good_file) with "a.wav".
    change (audio_path good_file_again) with "a.wav". rewrite Hlm. reflexivity.
  - reflexivity.
  - reflexivity.
  - intros j e' Hj He'. destruct j as [|[|j]]; [lia|lia|discriminate].
  - exact Hlook.
Defined.

(** Concatenating along the time axis features with the same number of
    channels and of bins keeps both and adds the frame counts up. *)
Theorem concat_axis1_shape C M (xs : list (tensor3 R)) (Ts : list nat) :
  xs ≠ [] → 1 ≤ C →
  Forall2 (λ x T, 1 ≤ T ∧ has_shape C T M x) xs Ts →
  ∃ t, concat_axis1 xs = inr t ∧ has_shape C (sum_list Ts) M t.
Proof.
  intros Hne HC HF.
  induction HF as [|x T xs Ts [HT Hx] HF IH]; [congruence|].
  destruct xs as [|x' xs'].
  - inversion HF; subst. exists x. split; [reflexivity|].
    simpl. now rewrite Nat.add_0_r.
  - destruct IH as (r & Hr & Hrs); [discriminate|].
    exists (zip_with app x r).
    change (concat_axis1 (x :: x' :: xs'))
      with (rbind (concat_axis1 (x' :: xs')) (λ r,
              if (length x =? length r) && (bins x =? bins r)
              then inr (zip_with app x r) else inl ValueError)).
    rewrite Hr. cbn [rbind].
    assert (HTs : 1 ≤ sum_list Ts).
    { inversion HF as [|? T' ? Ts' [HT' _] _]; subst. simpl. lia. }
    rewrite (has_shape_bins C T M x Hx HC HT),
            (has_shape_bins C _ M r Hrs HC HTs).
    destruct Hx as [Hlx Hx'], Hrs as [Hlr Hrs'].
    rewrite Hlx, Hlr, !Nat.eqb_refl. cbn [andb].
    split; [reflexivity|]. apply zip_app_shape; split; assumption.
Qed.

Lemma concat_axis1_shape_witness :
  ∃ t, concat_axis1 [file_a; file_b] = inr t ∧ has_shape 1 (sum_list [1; 2]) 1 t.
Proof.
  apply (concat_axis1_shape 1 1 [file_a; file_b] [1; 2]).
  - discriminate.
  - lia.
  - constructor; [|constructor; [|constructor]].
    + split; [lia|]. split; [reflexivity|]. repeat constructor.
    + split; [lia|]. split; [reflexivity|]. repeat constructor.
Defined.

Lemma upto_last_slash_no_slash b : no_slash b = true → upto_last_slash b = EmptyString.
Proof.
  induction b as [|c b IH]; [reflexivity|]. cbn [no_slash upto_last_slash].
  intros [Hc Hb]%andb_prop. rewrite (IH Hb). apply negb_true_iff in Hc.
  now rewrite Hc.
Qed.

Lemma upto_last_slash_dir d b :
  no_slash b = true → upto_last_slash (d +:+ "/" +:+ b) = d +:+ "/".
Proof.
  intros Hb. induction d as [|c d IH].
  - change (EmptyString +:+ "/" +:+ b) with (String slash b).
    cbn [upto_last_slash]. rewrite (upto_last_slash_no_slash b Hb).
    now rewrite Ascii.eqb_refl, orb_true_r.
  - change (String c d +:+ "/" +:+ b) with (String c (d +:+ "/" +:+ b)).
    cbn [upto_last_slash]. rewrite IH.
    replace (String.eqb (d +:+ "/") EmptyString) with false
      by (now destruct d).
    reflexivity.
Qed.

Lemma all_slashes_dir d :
  d ≠ EmptyString → ends_with_slash d = false → all_slashes (d +:+ "/") = false.
Proof.
  induction d as [|c d IH]; [congruence|]. intros _ Hend.
  change (String c d +:+ "/") with (String c (d +:+ "/")). cbn [all_slashes].
  destruct d as [|c' d'].
  - cbn [ends_with_slash] in Hend. now rewrite Hend.
  - rewrite IH; [apply andb_false_r|discriminate|exact Hend].
Qed.

Lemma rstrip_slash_dir d :
  d ≠ EmptyString → ends_with_slash d = false → rstrip_slash (d +:+ "/") = d.
Proof.
  induction d as [|c d IH]; [congruence|]. intros _ Hend.
  change (String c d +:+ "/") with (String c (d +:+ "/")). cbn [rstrip_slash].
  destruct d as [|c' d'].
  - cbn [ends_with_slash] in Hend.
    change (rstrip_slash (EmptyString +:+ "/")) with EmptyString.
    now rewrite Hend.
  - rewrite IH; [reflexivity|discriminate|exact Hend].
Qed.

(** The debug image goes next to the statistics file: for a statistics
    path [d/b] ([d] non-empty and not ending with a slash, [b] without
    slash) it is written at [d/data_sample.png], and for a path without
    directory part at [data_sample.png]. *)
Theorem plot_path_beside_statistics d b :
  no_slash b = true →
  plot_path b = "data_sample.png"
  ∧ (d ≠ EmptyString → ends_with_slash d = false →
     plot_path (d +:+ "/" +:+ b) = d +:+ "/data_sample.png").
Proof.
  intros Hb. unfold plot_path, os_path_dirname. split.
  - now rewrite (upto_last_slash_no_slash b Hb).
  - intros Hd Hend.
    rewrite (upto_last_slash_dir d b Hb), (all_slashes_dir d Hd Hend),
            (rstrip_slash_dir d Hd Hend).
    unfold os_path_join. change (String.prefix "/" "data_sample.png") with false.
    apply String.eqb_neq in Hd. now rewrite Hd, Hend.
Qed.

Lemma plot_path_beside_statistics_witness :
  plot_path "mean_std.pkl" = "data_sample.png"
  ∧ plot_path ("out/run1" +:+ "/" +:+ "mean_std.pkl") = "out/run1" +:+ "/data_sample.png".
Proof.
  destruct (plot_path_beside_statistics "out/run1" "mean_std.pkl") as [H1 H2].
  - reflexivity.
  - split; [exact H1|]. apply H2; [discriminate|reflexivity].
Defined.

(** ** Bounds *)

(** Whatever the file and the configuration, a log-mel feature that
    [preprocess_data] stores has no entry below [-100]. *)
Theorem compute_feature_floor cfg MEL resample soundfile_read path f :
  compute_feature cfg MEL resample soundfile_read path "logMel" = inr f →
  ∃ lm, f = LogMel lm ∧ all_entries (λ v, (-100 <= v)%R) lm.
Proof.
  unfold compute_feature. intros Hf.
  destruct (read_multichannel_audio _ _ _ _ _) as [?|w]; [discriminate|].
  cbn [rbind] in Hf.
  destruct (multichannel_stft cfg w) as [?|spec]; [discriminate|].
  cbn [rbind] in Hf. rewrite String.eqb_refl in Hf.
  destruct (multichannel_complex_to_log_mel MEL spec) as [?|lm] eqn:Hlm;
    [discriminate|].
  cbn [rbind] in Hf. injection Hf as <-. exists lm. split; [reflexivity|].
  pose proof (log_mel_inr_bins MEL spec lm Hlm) as Hbins.
  rewrite (log_mel_ok MEL _ spec eq_refl Hbins) in Hlm. injection Hlm as <-.
  unfold all_entries. rewrite Forall_map. apply Forall_forall. intros ch _.
  rewrite Forall_map. apply Forall_forall. intros row _. cbn beta.
  rewrite Forall_map. apply Forall_forall. intros p _. apply power_to_db_ge.
Qed.

Lemma compute_feature_floor_witness :
  ∃ f lm,
    compute_feature small_cfg small_mel hold_resample one_file_disk "a.wav" "logMel"
    = inr f
    ∧ f = LogMel lm ∧ all_entries (λ v, (-100 <= v)%R) lm.
Proof.
  destruct good_file_feature as (spec & lm0 & Hlm & _).
  destruct (compute_feature_floor small_cfg small_mel hold_resample one_file_disk
              "a.wav" (LogMel lm0) Hlm) as (lm & Heq & Hge).
  exists (LogMel lm0), lm. auto.
Defined.

Lemma Rsum_bounds lo hi (l : list R) :
  Forall (λ v, (lo <= v <= hi)%R) l →
  (INR (length l) * lo <= Rsum l <= INR (length l) * hi)%R.
Proof.
  induction 1 as [|v l [Hlo Hhi] _ [IHlo IHhi]]; [simpl; lra|].
  cbn [length Rsum fold_right]. fold (Rsum l). rewrite S_INR. lra.
Qed.

Lemma length_bin_values m (rs : list (list R)) :
  length (bin_values m rs) = length rs.
Proof. unfold bin_values. apply length_map. Qed.

Lemma bin_values_bounds lo hi m M (rs : list (list R)) :
  Forall (λ r, length r = M ∧ Forall (λ v, (lo <= v <= hi)%R) r) rs → m < M →
  Forall (λ v, (lo <= v <= hi)%R) (bin_values m rs).
Proof.
  intros HF Hm. unfold bin_values. rewrite Forall_map.
  eapply Forall_impl; [exact HF|]. intros r [Hlen Hr]. cbn beta.
  rewrite Forall_forall in Hr. apply Hr, list_elem_of_In, nth_In. lia.
Qed.



(** ** Time resolution *)

(** One hop of audio is one frame: a signal that is [hop_size] samples
    longer than another has exactly one frame more per channel. *)
Theorem multichannel_stft_one_frame_per_hop cfg a a' :
  valid_config cfg → 1 ≤ length (rows a) →
  length (rows a') = length (rows a) + hop_size cfg →
  ∃ spec spec' k,
    multichannel_stft cfg (Sf2 a) = inr spec
    ∧ multichannel_stft cfg (Sf2 a') = inr spec'
    ∧ Forall (λ ch, length ch = k) spec
    ∧ Forall (λ ch, length ch = k + 1) spec'.
Proof.
  intros Hcfg Hn Hn'.
  destruct (multichannel_stft_ok cfg a Hcfg Hn) as (spec & Hs & _ & HF).
  destruct (multichannel_stft_ok cfg a' Hcfg) as (spec' & Hs' & _ & HF'); [lia|].
  exists spec, spec', (stft_frames cfg (length (rows a))).
  split; [exact Hs|]. split; [exact Hs'|]. split.
  - eapply Forall_impl; [exact HF|]. now intros ch [H _].
  - eapply Forall_impl; [exact HF'|]. intros ch [H _]. rewrite H, Hn'.
    destruct Hcfg as (HN & _ & Hh). unfold stft_frames, frame_count.
    pose proof (Nat.div_mod_eq (NFFT cfg) 2) as Hdm.
    pose proof (Nat.mod_upper_bound (NFFT cfg) 2) as Hmod.
    replace (length (rows a) + hop_size cfg + 2 * (NFFT cfg / 2) - NFFT cfg)
      with (length (rows a) + 2 * (NFFT cfg / 2) - NFFT cfg + 1 * hop_size cfg)
      by lia.
    rewrite Nat.div_add by lia. lia.
Qed.

Lemma multichannel_stft_one_frame_per_hop_witness :
  ∃ spec spec' k,
    multichannel_stft small_cfg one_sample = inr spec
    ∧ multichannel_stft small_cfg two_samples = inr spec'
    ∧ Forall (λ ch, length ch = k) spec
    ∧ Forall (λ ch, length ch = k + 1) spec'.
Proof.
  apply (multichannel_stft_one_frame_per_hop small_cfg
           (Nd2 2 [[1%R; 1%R]]) (Nd2 2 [[1%R; 1%R]; [0%R; 0%R]])).
  - unfold valid_config; simpl; lia.
  - simpl; lia.
  - reflexivity.
Defined.

(** * The training loop of [main.py] *)

Lemma eval_call_fails : eval_call = inl TypeError.
Proof. reflexivity. Qed.

Lemma plain_iteration n :
  1 ≤ n → n ≤ 9 → (n mod 10 =? 0) = false ∧ (n mod 100 =? 0) = false.
Proof.
  intros H1 H9. rewrite !Nat.mod_small by lia.
  split; apply Nat.eqb_neq; lia.
Qed.

Section TrainProperties.
Variable batch : Type.
Variable model_state : Type.
Variable optimizer_step : batch → model_state → model_state.
Variable generate_train : nat → option batch.
Variable eval_body : train_state model_state → train_state model_state * outcome.

Local Abbreviation loop := (train_loop batch model_state optimizer_step generate_train eval_body).
Local Abbreviation steps := (after_steps batch model_state optimizer_step generate_train).

Lemma train_loop_prefix k fuel num_steps i (st : train_state model_state) :
  iterations _ st = i → i + k ≤ 9 →
  (∀ j, j < k → generate_train (i + j) ≠ None) →
  (∀ n, i < n → n ≤ i + k → n ≠ num_steps) →
  loop (k + fuel) num_steps i st
  = loop fuel num_steps (i + k)
      (TrainState _ (i + k) (steps i k (model _ st)) (lrs _ st) (saved _ st) (tdirs _ st)).
Proof.
  revert i st. induction k as [|k IH]; intros i st Hi Hk Hgen Hns.
  - rewrite Nat.add_0_r. cbn [Nat.add after_steps]. destruct st; simpl in *. now subst.
  - cbn [Nat.add train_loop].
    destruct (generate_train i) as [b|] eqn:Hb;
      [|exfalso; apply (Hgen 0); [lia|now rewrite Nat.add_0_r]].
    destruct (plain_iteration (i + 1)) as [H10 H100]; [lia|lia|].
    cbv zeta. cbn [iterations model lrs saved tdirs]. rewrite Hi, H10.
    repeat (cbn [iterations model lrs saved tdirs]; rewrite H100).
    cbn [iterations model lrs saved tdirs].
    replace (i + 1 =? num_steps) with false
      by (symmetry; apply Nat.eqb_neq, Hns; lia).
    rewrite (IH (S i)); cbn [iterations model lrs saved tdirs].
    + replace (S i + k) with (i + S k) by lia.
      cbn [after_steps]. now rewrite Hb.
    + lia.
    + lia.
    + intros j Hj. replace (S i + j) with (i + S j) by lia. apply Hgen. lia.
    + intros n Hn1 Hn2. apply Hns; lia.
Qed.

Lemma train_loop_bounded fuel num_steps i (st : train_state model_state) L :
  iterations _ st ≤ 9 → saved _ st = [] → lrs _ st = L →
  saved _ (loop fuel num_steps i st).1 = []
  ∧ lrs _ (loop fuel num_steps i st).1 = L
  ∧ iterations _ (loop fuel num_steps i st).1 ≤ 10
  ∧ tdirs _ (loop fuel num_steps i st).1 = tdirs _ st
  ∧ (10 ≤ iterations _ st + fuel → (loop fuel num_steps i st).2 ≠ OutOfFuel).
Proof.
  revert i st. induction fuel as [|fuel IH]; intros i st Hit Hsaved Hlrs.
  - cbn [train_loop fst snd]. repeat split; auto; lia.
  - cbn [train_loop]. destruct (generate_train i) as [b|];
      [|cbn [fst snd]; repeat split; auto; try lia; intros; discriminate].
    cbv zeta. cbn [iterations model lrs saved tdirs].
    destruct (Nat.eq_dec (iterations _ st + 1) 10) as [E10|E10].
    + rewrite E10. change (10 mod 10 =? 0) with true. cbn match.
      rewrite eval_call_fails. cbn [fst snd iterations saved lrs tdirs].
      repeat split; auto; intros; discriminate.
    + destruct (plain_iteration (iterations _ st + 1)) as [H10 H100]; [lia|lia|].
      rewrite H10. repeat (cbn [iterations model lrs saved tdirs]; rewrite H100).
      cbn [iterations model lrs saved tdirs].
      destruct (iterations _ st + 1 =? num_steps).
      * cbn [fst snd iterations saved lrs tdirs].
        repeat split; auto; try lia; intros; discriminate.
      * destruct (IH (S i) (TrainState _ (iterations _ st + 1)
                              (optimizer_step b (model _ st)) (lrs _ st) (saved _ st)
                              (tdirs _ st)))
          as (H1 & H2 & H3 & H4 & H5); cbn [iterations saved lrs tdirs]; auto; [lia|].
        cbn [iterations saved lrs tdirs] in *.
        split; [exact H1|]. split; [exact H2|]. split; [exact H3|].
        split; [exact H4|]. intros Hf. apply H5. lia.
Qed.
End TrainProperties.

Lemma after_steps_last {batch model_state} (optimizer_step : batch → model_state → model_state)
    (generate_train : nat → option batch) i n m b :
  (∀ j, j < n → generate_train (i + j) ≠ None) →
  generate_train (i + n) = Some b →
  after_steps batch model_state optimizer_step generate_train i (S n) m
  = optimizer_step b (after_steps batch model_state optimizer_step generate_train i n m).
Proof.
  revert i m. induction n as [|n IH]; intros i m Hgen Hb.
  - rewrite Nat.add_0_r in Hb. cbn [after_steps]. now rewrite Hb.
  - cbn [after_steps]. destruct (generate_train i) as [b0|] eqn:Hb0;
      [|exfalso; apply (Hgen 0); [lia|now rewrite Nat.add_0_r]].
    change (match generate_train (S i) with
            | Some b1 => after_steps batch model_state optimizer_step generate_train
                           (S (S i)) n (optimizer_step b1 (optimizer_step b0 m))
            | None => optimizer_step b0 m
            end)
      with (after_steps batch model_state optimizer_step generate_train (S i) (S n)
              (optimizer_step b0 m)).
    apply IH.
    + intros j Hj. replace (S i + j) with (i + S j) by lia. apply Hgen. lia.
    + now replace (S i + n) with (i + S n) by lia.
Qed.

(** [train] never saves a checkpoint and never changes the learning
    rate, whatever the generator, the number of steps and the model: it
    is over after ten passes of the loop at most, so ten units of fuel are
    always enough. *)
Theorem train_never_saves_checkpoint
    batch model_state optimizer_step generate_train eval_body
    fuel m num_steps outputs_dir dirs0 :
  let r := train batch model_state optimizer_step generate_train eval_body
             fuel m num_steps outputs_dir dirs0 in
  saved _ r.1 = []
  ∧ lrs _ r.1 = [1e-3%R]
  ∧ iterations _ r.1 ≤ 10
  ∧ (10 ≤ fuel → r.2 ≠ OutOfFuel).
Proof.
  intros r. unfold r, train. destruct (decide _) as [Hin|Hnot].
  - cbn [fst snd saved lrs iterations].
    repeat split; auto; try lia; intros; discriminate.
  - set (st0 := TrainState model_state 0 m [1e-3%R] [] _).
    destruct (train_loop_bounded batch model_state optimizer_step generate_train
                eval_body fuel num_steps 0 st0 [1e-3%R])
      as (H1 & H2 & H3 & _ & H5).
    + unfold st0. cbn [iterations]. lia.
    + reflexivity.
    + reflexivity.
    + split; [exact H1|]. split; [exact H2|]. split; [exact H3|].
      intros Hf. apply H5. unfold st0. cbn [iterations]. lia.
Qed.

(** With ten batches at hand, and a number of steps that is not between
    1 and 9, [train] raises [TypeError] in its tenth pass, at the call of
    [eval], whose keyword [iterations] names no parameter: the model has
    gone through ten optimizer steps and nothing has been saved. *)
Theorem train_raises_at_tenth_batch
    batch model_state optimizer_step generate_train eval_body
    fuel m num_steps outputs_dir dirs0 :
  (∀ j, j < 10 → generate_train j ≠ None) →
  num_steps = 0 ∨ 10 ≤ num_steps →
  10 ≤ fuel →
  os_path_join outputs_dir "checkpoints" ∉ dirs0 →
  train batch model_state optimizer_step generate_train eval_body
    fuel m num_steps outputs_dir dirs0
  = (TrainState _ 10
       (after_steps batch model_state optimizer_step generate_train 0 10 m)
       [1e-3%R] []
       ({[os_path_join outputs_dir "checkpoints"; outputs_dir]} ∪ dirs0),
     Raised TypeError).
Proof.
  intros Hgen Hns Hfuel Hdir. unfold train.
  destruct (decide _) as [Hin|_]; [contradiction|].
  replace fuel with (9 + S (fuel - 10)) by lia.
  rewrite train_loop_prefix; cbn [iterations model lrs saved tdirs Nat.add];
    [|reflexivity|lia|intros j Hj; apply Hgen; lia|intros n Hn1 Hn2; lia].
  cbn [train_loop].
  destruct (generate_train 9) as [b|] eqn:Hb; [|exfalso; apply (Hgen 9); [lia|exact Hb]].
  cbv zeta. cbn [iterations model lrs saved tdirs Nat.add].
  change (10 mod 10 =? 0) with true. cbn match. rewrite eval_call_fails.
  rewrite (after_steps_last optimizer_step generate_train 0 9 m b);
    [reflexivity|intros j Hj; apply Hgen; lia|exact Hb].
Qed.

Lemma train_raises_at_tenth_batch_witness :
  train nat nat counting_step endless_batches no_eval 300 0 300 "outputs" ∅
  = (TrainState _ 10 (after_steps nat nat counting_step endless_batches 0 10 0)
       [1e-3%R] [] ({[os_path_join "outputs" "checkpoints"; "outputs"]} ∪ ∅),
     Raised TypeError).
Proof.
  apply (train_raises_at_tenth_batch nat nat counting_step endless_batches no_eval
           300 0 300 "outputs" ∅).
  - intros j _. discriminate.
  - right. lia.
  - lia.
  - apply not_elem_of_empty.
Defined.

(** With a number of steps between 1 and 9 and as many batches at hand,
    [train] returns after exactly that many optimizer steps. *)
Theorem train_stops_at_num_steps
    batch model_state optimizer_step generate_train eval_body
    fuel m num_steps outputs_dir dirs0 :
  1 ≤ num_steps → num_steps ≤ 9 →
  (∀ j, j < num_steps → generate_train j ≠ None) →
  num_steps ≤ fuel →
  os_path_join outputs_dir "checkpoints" ∉ dirs0 →
  train batch model_state optimizer_step generate_train eval_body
    fuel m num_steps outputs_dir dirs0
  = (TrainState _ num_steps
       (after_steps batch model_state optimizer_step generate_train 0 num_steps m)
       [1e-3%R] []
       ({[os_path_join outputs_dir "checkpoints"; outputs_dir]} ∪ dirs0),
     Returned).
Proof.
  intros H1 H9 Hgen Hfuel Hdir. unfold train.
  destruct (decide _) as [Hin|_]; [contradiction|].
  destruct num_steps as [|k]; [lia|].
  replace fuel with (k + S (fuel - S k)) by lia.
  rewrite train_loop_prefix; cbn [iterations model lrs saved tdirs Nat.add];
    [|reflexivity|lia|intros j Hj; apply Hgen; lia|intros n Hn1 Hn2; lia].
  cbn [train_loop].
  destruct (generate_train k) as [b|] eqn:Hb; [|exfalso; apply (Hgen k); [lia|exact Hb]].
  cbv zeta. cbn [iterations model lrs saved tdirs].
  destruct (plain_iteration (k + 1)) as [H10 H100]; [lia|lia|].
  rewrite H10. repeat (cbn [iterations model lrs saved tdirs]; rewrite H100).
  cbn [iterations model lrs saved tdirs].
  replace (k + 1 =? S k) with true by (symmetry; apply Nat.eqb_eq; lia).
  rewrite (after_steps_last optimizer_step generate_train 0 k m b);
    [|intros j Hj; apply Hgen; lia|exact Hb].
  now replace (k + 1) with (S k) by lia.
Qed.

Lemma train_stops_at_num_steps_witness :
  train nat nat counting_step endless_batches no_eval 5 0 5 "outputs" ∅
  = (TrainState _ 5 (after_steps nat nat counting_step endless_batches 0 5 0)
       [1e-3%R] [] ({[os_path_join "outputs" "checkpoints"; "outputs"]} ∪ ∅),
     Returned).
Proof.
  apply (train_stops_at_num_steps nat nat counting_step endless_batches no_eval
           5 0 5 "outputs" ∅).
  - lia.
  - lia.
  - intros j _. discriminate.
  - lia.
  - apply not_elem_of_empty.
Defined.

(** A generator that yields [n <= 9] batches, fewer than the number of
    steps asked for, ends the loop: [train] returns after [n] optimizer
    steps. *)
Theorem train_generator_exhausted
    batch model_state optimizer_step generate_train eval_body
    fuel m num_steps outputs_dir dirs0 n :
  n ≤ 9 →
  (∀ j, j < n → generate_train j ≠ None) →
  generate_train n = None →
  num_steps = 0 ∨ n < num_steps →
  n < fuel →
  os_path_join outputs_dir "checkpoints" ∉ dirs0 →
  train batch model_state optimizer_step generate_train eval_body
    fuel m num_steps outputs_dir dirs0
  = (TrainState _ n
       (after_steps batch model_state optimizer_step generate_train 0 n m)
       [1e-3%R] []
       ({[os_path_join outputs_dir "checkpoints"; outputs_dir]} ∪ dirs0),
     Returned).
Proof.
  intros Hn Hgen Hend Hns Hfuel Hdir. unfold train.
  destruct (decide _) as [Hin|_]; [contradiction|].
  replace fuel with (n + S (fuel - S n)) by lia.
  rewrite train_loop_prefix; cbn [iterations model lrs saved tdirs Nat.add];
    [|reflexivity|lia|intros j Hj; apply Hgen; lia|intros k Hk1 Hk2; lia].
  cbn [train_loop]. now rewrite Hend.
Qed.

Lemma train_generator_exhausted_witness :
  train nat nat counting_step three_batches no_eval 300 0 300 "outputs" ∅
  = (TrainState _ 3 (after_steps nat nat counting_step three_batches 0 3 0)
       [1e-3%R] [] ({[os_path_join "outputs" "checkpoints"; "outputs"]} ∪ ∅),
     Returned).
Proof.
  apply (train_generator_exhausted nat nat counting_step three_batches no_eval
           300 0 300 "outputs" ∅ 3).
  - lia.
  - intros j Hj. unfold three_batches.
    replace (j <? 3) with true by (symmetry; apply Nat.ltb_lt; lia). discriminate.
  - reflexivity.
  - right. lia.
  - lia.
  - apply not_elem_of_empty.
Defined.
